(** * Account pool of the proxy: round-robin rotation and health tracking

    Shallow embedding of [src/main/proxy/accountPool.ts] (class
    [AccountPool]) and the properties of its selection and backoff logic,
    followed by the log buffer of the realtime log panel and by the parts
    in which the other version of the class differs.

    Conventions of the embedding:
    - a JavaScript [number] holding a timestamp, a duration or a counter is
      an integer in [Z]; an optional field is an [option], [None] standing
      for [undefined];
    - [Date.now()] is an explicit argument [now] of every method that reads
      the clock;
    - a [Map] is an insertion-ordered association list ([JsMap]);
    - a method that mutates [this] returns the new pool next to its result;
    - [console.log] calls are dropped. *)

From Stdlib Require Import ZArith List String Bool Lia Arith Permutation.
Import ListNotations.
Open Scope Z_scope.

(** ** JavaScript truthiness of optional numbers and booleans *)

Module Js.

(** [x] used as a condition: [undefined] and [0] are falsy. *)
Definition truthy (x : option Z) : bool :=
  match x with
  | Some z => negb (z =? 0)
  | None => false
  end.

(** [x || 0]. *)
Definition orZero (x : option Z) : Z :=
  match x with
  | Some z => z
  | None => 0
  end.

(** [x && test(x)] used as a condition. *)
Definition andAlso (x : option Z) (test : Z -> bool) : bool :=
  match x with
  | Some z => negb (z =? 0) && test z
  | None => false
  end.

(** [b !== false]. *)
Definition notFalse (b : option bool) : bool :=
  match b with
  | Some false => false
  | _ => true
  end.

(** Outcome of a call that can raise [TypeError] (a property read on
    [undefined]). *)
Inductive completion (A : Type) : Type :=
| Normal (v : A)
| TypeError.
Arguments Normal {A} v.
Arguments TypeError {A}.

End Js.

(** ** Insertion-ordered [Map<string, V>] *)

Module JsMap.
Section Ops.
Context {V : Type}.

Fixpoint get (k : string) (m : list (string * V)) : option V :=
  match m with
  | [] => None
  | (k', v) :: rest => if String.eqb k' k then Some v else get k rest
  end.

(** [set] keeps the position of an existing key and appends a new one. *)
Fixpoint set (k : string) (v : V) (m : list (string * V)) : list (string * V) :=
  match m with
  | [] => [(k, v)]
  | (k', v') :: rest =>
      if String.eqb k' k then (k, v) :: rest else (k', v') :: set k v rest
  end.

Fixpoint delete (k : string) (m : list (string * V)) : list (string * V) :=
  match m with
  | [] => []
  | (k', v') :: rest =>
      if String.eqb k' k then rest else (k', v') :: delete k rest
  end.

Definition keys (m : list (string * V)) : list string := map fst m.
Definition values (m : list (string * V)) : list V := map snd m.
Definition size (m : list (string * V)) : nat := List.length m.
End Ops.
End JsMap.

(** ** Data model *)

Inductive ErrorType : Type := quota | auth | network | server | unknown.

Record AccountPoolConfig : Type := mkConfig {
  cooldownMs : Z;
  maxErrorCount : Z;
  quotaResetMs : Z;
  networkCooldownMs : Z;
  serverCooldownMs : Z;
  autoRecoverMs : Z;
  expiryGracePeriodMs : Z
}.

Definition DEFAULT_CONFIG : AccountPoolConfig := {|
  cooldownMs := 60000;
  maxErrorCount := 3;
  quotaResetMs := 3600000;
  networkCooldownMs := 10000;
  serverCooldownMs := 30000;
  autoRecoverMs := 300000;
  expiryGracePeriodMs := 60000
|}.

(** [Partial<AccountPoolConfig>]: the overrides given to the constructor. *)
Record PartialConfig : Type := mkPartialConfig {
  cooldownMs' : option Z;
  maxErrorCount' : option Z;
  quotaResetMs' : option Z;
  networkCooldownMs' : option Z;
  serverCooldownMs' : option Z;
  autoRecoverMs' : option Z;
  expiryGracePeriodMs' : option Z
}.

Definition noOverrides : PartialConfig :=
  mkPartialConfig None None None None None None None.

Definition override {A : Type} (base : A) (o : option A) : A :=
  match o with Some v => v | None => base end.

(** Modelled from the spec: the interface [ProxyAccount] is declared in
    [./types], which is not among the sources.  The fields are those of
    section 3 of the specification (identity, liveness flag, failure
    tracking, credential lifetime, usage counters); every field except [id]
    is optional, as the code reads them ([account.errorCount || 0],
    [account.isAvailable !== false], [account.email || account.id]). *)
Record ProxyAccount : Type := mkAccount {
  id : string;
  email : option string;
  idp : option string;
  isAvailable : option bool;
  errorCount : option Z;
  requestCount : option Z;
  lastUsed : option Z;
  cooldownUntil : option Z;
  autoRecoverAt : option Z;
  expiresAt : option Z
}.

(** Modelled from the spec: [Partial<ProxyAccount>], the argument of
    [updateAccount]; [None] is an absent key, [Some v] overrides the field
    (for an optional field [v] may itself be [None], an explicit
    [undefined]). *)
Record AccountUpdates : Type := mkUpdates {
  u_id : option string;
  u_email : option (option string);
  u_idp : option (option string);
  u_isAvailable : option (option bool);
  u_errorCount : option (option Z);
  u_requestCount : option (option Z);
  u_lastUsed : option (option Z);
  u_cooldownUntil : option (option Z);
  u_autoRecoverAt : option (option Z);
  u_expiresAt : option (option Z)
}.

Module Stats.
(** Modelled from the spec: the interface [AccountStats] of [./types];
    the fields are the ones [addAccount] initialises. *)
Record AccountStats : Type := mkStats {
  requests : Z;
  tokens : Z;
  inputTokens : Z;
  outputTokens : Z;
  errors : Z;
  lastUsed : Z;
  avgResponseTime : Z;
  totalResponseTime : Z
}.
End Stats.
Import Stats(AccountStats).

(** The private fields of the class. *)
Record AccountPool : Type := mkPool {
  accounts : list (string * ProxyAccount);
  accountStats : list (string * AccountStats);
  currentIndex : nat;
  config : AccountPoolConfig
}.

Definition withAccounts (m : list (string * ProxyAccount)) (p : AccountPool) : AccountPool :=
  mkPool m (accountStats p) (currentIndex p) (config p).

Definition withStats (s : list (string * AccountStats)) (p : AccountPool) : AccountPool :=
  mkPool (accounts p) s (currentIndex p) (config p).

Definition withIndex (i : nat) (p : AccountPool) : AccountPool :=
  mkPool (accounts p) (accountStats p) i (config p).

(** ** Methods of [AccountPool] *)

(** [constructor(config = {})]: [{ ...DEFAULT_CONFIG, ...config }]. *)
Definition newPool (c : PartialConfig) : AccountPool :=
  mkPool [] [] 0%nat
    {| cooldownMs := override (cooldownMs DEFAULT_CONFIG) (cooldownMs' c);
       maxErrorCount := override (maxErrorCount DEFAULT_CONFIG) (maxErrorCount' c);
       quotaResetMs := override (quotaResetMs DEFAULT_CONFIG) (quotaResetMs' c);
       networkCooldownMs := override (networkCooldownMs DEFAULT_CONFIG) (networkCooldownMs' c);
       serverCooldownMs := override (serverCooldownMs DEFAULT_CONFIG) (serverCooldownMs' c);
       autoRecoverMs := override (autoRecoverMs DEFAULT_CONFIG) (autoRecoverMs' c);
       expiryGracePeriodMs := override (expiryGracePeriodMs DEFAULT_CONFIG) (expiryGracePeriodMs' c) |}.

Definition zeroStats : AccountStats :=
  Stats.mkStats 0 0 0 0 0 0 0 0.

Definition addAccount (account : ProxyAccount) (p : AccountPool) : AccountPool :=
  let p1 :=
    withAccounts
      (JsMap.set (id account)
         {| id := id account;
            email := email account;
            idp := idp account;
            isAvailable := Some true;
            errorCount := Some 0;
            requestCount := Some 0;
            lastUsed := Some 0;
            cooldownUntil := cooldownUntil account;
            autoRecoverAt := autoRecoverAt account;
            expiresAt := expiresAt account |}
         (accounts p)) p in
  withStats (JsMap.set (id account) zeroStats (accountStats p1)) p1.

Definition removeAccount (accountId : string) (p : AccountPool) : AccountPool :=
  let p1 := withAccounts (JsMap.delete accountId (accounts p)) p in
  withStats (JsMap.delete accountId (accountStats p1)) p1.

(** [{ ...account, ...updates }]. *)
Definition merge (account : ProxyAccount) (updates : AccountUpdates) : ProxyAccount :=
  {| id := override (id account) (u_id updates);
     email := override (email account) (u_email updates);
     idp := override (idp account) (u_idp updates);
     isAvailable := override (isAvailable account) (u_isAvailable updates);
     errorCount := override (errorCount account) (u_errorCount updates);
     requestCount := override (requestCount account) (u_requestCount updates);
     lastUsed := override (lastUsed account) (u_lastUsed updates);
     cooldownUntil := override (cooldownUntil account) (u_cooldownUntil updates);
     autoRecoverAt := override (autoRecoverAt account) (u_autoRecoverAt updates);
     expiresAt := override (expiresAt account) (u_expiresAt updates) |}.

Definition updateAccount (accountId : string) (updates : AccountUpdates)
    (p : AccountPool) : AccountPool :=
  match JsMap.get accountId (accounts p) with
  | Some account => withAccounts (JsMap.set accountId (merge account updates) (accounts p)) p
  | None => p
  end.

(** The record written by the auto-recovery branch of [isAccountAvailable]. *)
Definition recovered (account : ProxyAccount) : ProxyAccount :=
  {| id := id account;
     email := email account;
     idp := idp account;
     isAvailable := Some true;
     errorCount := Some 0;
     requestCount := requestCount account;
     lastUsed := lastUsed account;
     cooldownUntil := None;
     autoRecoverAt := None;
     expiresAt := expiresAt account |}.

(** [isAccountAvailable(account, now)]: the verdict and the pool after the
    call (the first branch writes the recovered record under [account.id]). *)
Definition isAccountAvailable (account : ProxyAccount) (now : Z) (p : AccountPool)
    : bool * AccountPool :=
  if Js.andAlso (autoRecoverAt account) (fun t => t <=? now) then
    (true, withAccounts (JsMap.set (id account) (recovered account) (accounts p)) p)
  else if Js.andAlso (autoRecoverAt account) (fun t => t >? now) then
    (false, p)
  else if Js.andAlso (cooldownUntil account) (fun t => t >? now) then
    (false, p)
  else if Js.orZero (errorCount account) >=? maxErrorCount (config p) then
    (false, p)
  else if Js.andAlso (expiresAt account)
            (fun e => e + expiryGracePeriodMs (config p) <? now) then
    (false, p)
  else
    (Js.notFalse (isAvailable account), p).

(** [wait < shortestWait], where [shortestWait] starts at [Infinity]
    ([None]). *)
Definition belowWait (wait : Z) (shortestWait : option Z) : bool :=
  match shortestWait with
  | None => true
  | Some s => wait <? s
  end.

(** [Math.max(0, (account.cooldownUntil || 0) - now)]. *)
Definition waitOf (account : ProxyAccount) (now : Z) : Z :=
  Z.max 0 (Js.orZero (cooldownUntil account) - now).

(** The [for] loop of [getAccountWithShortestCooldown]. *)
Fixpoint shortestLoop (accts : list ProxyAccount) (now : Z)
    (bestAccount : option ProxyAccount) (shortestWait : option Z)
    : option ProxyAccount :=
  match accts with
  | [] => bestAccount
  | account :: rest =>
      let wait := waitOf account now in
      if belowWait wait shortestWait
      then shortestLoop rest now (Some account) (Some wait)
      else shortestLoop rest now bestAccount shortestWait
  end.

Definition getAccountWithShortestCooldown (accts : list ProxyAccount) (now : Z)
    : option ProxyAccount :=
  shortestLoop accts now None None.

(** The [while (attempts < maxAttempts)] loop of [getNextAccount];
    [remaining] is [maxAttempts - attempts].  [accountList[currentIndex]] is
    [undefined] past the end of the snapshot; the cursor is advanced before
    [isAccountAvailable] reads [account.autoRecoverAt] and raises. *)
Fixpoint scanLoop (accountList : list ProxyAccount) (now : Z) (remaining : nat)
    (p : AccountPool) : Js.completion (option ProxyAccount) * AccountPool :=
  match remaining with
  | O => (Js.Normal (getAccountWithShortestCooldown accountList now), p)
  | S remaining' =>
      let account := nth_error accountList (currentIndex p) in
      let p1 := withIndex ((currentIndex p + 1) mod List.length accountList)%nat p in
      match account with
      | None => (Js.TypeError, p1)
      | Some account =>
          let '(ok, p2) := isAccountAvailable account now p1 in
          if ok then (Js.Normal (Some account), p2)
          else scanLoop accountList now remaining' p2
      end
  end.

Definition getNextAccount (now : Z) (p : AccountPool)
    : Js.completion (option ProxyAccount) * AccountPool :=
  let accountList := JsMap.values (accounts p) in
  match accountList with
  | [] => (Js.Normal None, p)
  | _ => scanLoop accountList now (List.length accountList) p
  end.

Definition getAccount (accountId : string) (p : AccountPool) : option ProxyAccount :=
  JsMap.get accountId (accounts p).

Definition isOther (excludeAccountId : string) (a : ProxyAccount) : bool :=
  negb (String.eqb (id a) excludeAccountId).

(** The [for (const account of accountList)] loop of
    [getNextAvailableAccount]; [&&] does not evaluate the availability of
    the excluded account. *)
Fixpoint firstOther (accountList todo : list ProxyAccount) (excludeAccountId : string)
    (now : Z) (p : AccountPool) : option ProxyAccount * AccountPool :=
  match todo with
  | [] =>
      (getAccountWithShortestCooldown (filter (isOther excludeAccountId) accountList) now, p)
  | account :: rest =>
      if isOther excludeAccountId account then
        let '(ok, p1) := isAccountAvailable account now p in
        if ok then (Some account, p1)
        else firstOther accountList rest excludeAccountId now p1
      else firstOther accountList rest excludeAccountId now p
  end.

Definition getNextAvailableAccount (excludeAccountId : string) (now : Z) (p : AccountPool)
    : option ProxyAccount * AccountPool :=
  let accountList := JsMap.values (accounts p) in
  if (List.length accountList <=? 1)%nat then (None, p)
  else firstOther accountList accountList excludeAccountId now p.

Definition getAllAccounts (p : AccountPool) : list ProxyAccount :=
  JsMap.values (accounts p).

(** The record [recordSuccess] writes for [account]:
    [{ ...account, requestCount, errorCount: 0, lastUsed, isAvailable: true }]. *)
Definition succeeded (account : ProxyAccount) (now : Z) : ProxyAccount :=
  {| id := id account;
     email := email account;
     idp := idp account;
     isAvailable := Some true;
     errorCount := Some 0;
     requestCount := Some (Js.orZero (requestCount account) + 1);
     lastUsed := Some now;
     cooldownUntil := cooldownUntil account;
     autoRecoverAt := autoRecoverAt account;
     expiresAt := expiresAt account |}.

(** [recordSuccess(accountId, tokens)]; [now] and [now'] are the two
    successive readings of [Date.now()]. *)
Definition recordSuccess (accountId : string) (tokens : Z) (now now' : Z)
    (p : AccountPool) : AccountPool :=
  let p1 :=
    match JsMap.get accountId (accounts p) with
    | Some account =>
        withAccounts (JsMap.set accountId (succeeded account now) (accounts p)) p
    | None => p
    end in
  match JsMap.get accountId (accountStats p1) with
  | Some stats =>
      withStats
        (JsMap.set accountId
           (Stats.mkStats
              (Stats.requests stats + 1)
              (Stats.tokens stats + tokens)
              (Stats.inputTokens stats)
              (Stats.outputTokens stats)
              (Stats.errors stats)
              now'
              (Stats.avgResponseTime stats)
              (Stats.totalResponseTime stats))
           (accountStats p1)) p1
  | None => p1
  end.

(** The locals of [recordError] after the [switch]:
    [(errorCount, cooldownUntil, autoRecoverAt, isAvailable)]. *)
Definition applyPolicy (cfg : AccountPoolConfig) (account : ProxyAccount)
    (errorType : ErrorType) (now : Z) : Z * Z * option Z * bool :=
  let errorCount0 := Js.orZero (errorCount account) in
  let cooldownUntil0 := Js.orZero (cooldownUntil account) in
  let autoRecoverAt0 := autoRecoverAt account in
  let isAvailable0 := Js.notFalse (isAvailable account) in
  match errorType with
  | quota =>
      (errorCount0, now + quotaResetMs cfg, autoRecoverAt0, isAvailable0)
  | auth =>
      (errorCount0, cooldownUntil0, Some (now + autoRecoverMs cfg), false)
  | network =>
      (errorCount0, now + networkCooldownMs cfg, autoRecoverAt0, isAvailable0)
  | server =>
      (errorCount0 + 1, now + serverCooldownMs cfg, autoRecoverAt0, isAvailable0)
  | unknown =>
      let errorCount1 := errorCount0 + 1 in
      if errorCount1 >=? maxErrorCount cfg
      then (errorCount1, now + cooldownMs cfg, autoRecoverAt0, isAvailable0)
      else (errorCount1, cooldownUntil0, autoRecoverAt0, isAvailable0)
  end.

(** The record [recordError] writes for [account]:
    [{ ...account, errorCount, cooldownUntil, autoRecoverAt, isAvailable,
    lastUsed: now }]. *)
Definition errored (cfg : AccountPoolConfig) (account : ProxyAccount)
    (errorType : ErrorType) (now : Z) : ProxyAccount :=
  let '(errorCount1, cooldownUntil1, autoRecoverAt1, isAvailable1) :=
    applyPolicy cfg account errorType now in
  {| id := id account;
     email := email account;
     idp := idp account;
     isAvailable := Some isAvailable1;
     errorCount := Some errorCount1;
     requestCount := requestCount account;
     lastUsed := Some now;
     cooldownUntil := Some cooldownUntil1;
     autoRecoverAt := autoRecoverAt1;
     expiresAt := expiresAt account |}.

Definition recordError (accountId : string) (errorType : ErrorType) (now : Z)
    (p : AccountPool) : AccountPool :=
  match JsMap.get accountId (accounts p) with
  | None => p
  | Some account =>
      let p1 :=
        withAccounts
          (JsMap.set accountId (errored (config p) account errorType now) (accounts p))
          p in
      match JsMap.get accountId (accountStats p1) with
      | Some stats =>
          withStats
            (JsMap.set accountId
               (Stats.mkStats
                  (Stats.requests stats)
                  (Stats.tokens stats)
                  (Stats.inputTokens stats)
                  (Stats.outputTokens stats)
                  (Stats.errors stats + 1)
                  now
                  (Stats.avgResponseTime stats)
                  (Stats.totalResponseTime stats))
               (accountStats p1)) p1
      | None => p1
      end
  end.

Definition markNeedsRefresh (accountId : string) (now : Z) (p : AccountPool)
    : AccountPool :=
  match JsMap.get accountId (accounts p) with
  | Some account =>
      withAccounts
        (JsMap.set accountId
           {| id := id account;
              email := email account;
              idp := idp account;
              isAvailable := Some false;
              errorCount := errorCount account;
              requestCount := requestCount account;
              lastUsed := lastUsed account;
              cooldownUntil := cooldownUntil account;
              autoRecoverAt := Some (now + 30000);
              expiresAt := expiresAt account |}
           (accounts p)) p
  | None => p
  end.

(** The [total] object of [getStats]: requests, tokens, errors. *)
Definition getStatsTotal (p : AccountPool) : Z * Z * Z :=
  fold_left
    (fun '(totalRequests, totalTokens, totalErrors) stats =>
       (totalRequests + Stats.requests stats,
        totalTokens + Stats.tokens stats,
        totalErrors + Stats.errors stats))
    (JsMap.values (accountStats p)) (0, 0, 0).

Definition getStats (p : AccountPool) : list (string * AccountStats) * (Z * Z * Z) :=
  (accountStats p, getStatsTotal p).

(** The record written by [reset]: [autoRecoverAt] is kept. *)
Definition softReset (account : ProxyAccount) : ProxyAccount :=
  {| id := id account;
     email := email account;
     idp := idp account;
     isAvailable := Some true;
     errorCount := Some 0;
     requestCount := requestCount account;
     lastUsed := lastUsed account;
     cooldownUntil := None;
     autoRecoverAt := autoRecoverAt account;
     expiresAt := expiresAt account |}.

(** The record written by [resetAccountState] and [resetAllAccountStates]. *)
Definition fullReset (account : ProxyAccount) : ProxyAccount :=
  {| id := id account;
     email := email account;
     idp := idp account;
     isAvailable := Some true;
     errorCount := Some 0;
     requestCount := requestCount account;
     lastUsed := lastUsed account;
     cooldownUntil := None;
     autoRecoverAt := None;
     expiresAt := expiresAt account |}.

(** [for (const [id, account] of this.accounts) this.accounts.set(id, f(account))]:
    every entry is rewritten under its own key, in place. *)
Definition rewriteAll (f : ProxyAccount -> ProxyAccount)
    (m : list (string * ProxyAccount)) : list (string * ProxyAccount) :=
  fold_left (fun acc '(k, account) => JsMap.set k (f account) acc) m m.

Definition reset (p : AccountPool) : AccountPool :=
  withIndex 0%nat (withAccounts (rewriteAll softReset (accounts p)) p).

Definition clear (p : AccountPool) : AccountPool :=
  mkPool [] [] 0%nat (config p).

Definition size (p : AccountPool) : nat :=
  JsMap.size (accounts p).

(** The object returned by [getAccountDiagnostics]. *)
Record Diagnostics : Type := mkDiagnostics {
  d_id : string;
  d_email : option string;
  d_isAvailable : option bool;
  d_errorCount : option Z;
  d_cooldownUntil : option Z;
  d_autoRecoverAt : option Z;
  d_expiresAt : option Z;
  isCurrentlyAvailable : bool;
  cooldownRemaining : Z;
  autoRecoverRemaining : Z;
  tokenExpiresIn : option Z
}.

(** [x ? Math.max(0, x - now) : 0]. *)
Definition remaining (x : option Z) (now : Z) : Z :=
  if Js.truthy x then Z.max 0 (Js.orZero x - now) else 0.

Definition getAccountDiagnostics (accountId : string) (now : Z) (p : AccountPool)
    : option Diagnostics * AccountPool :=
  match JsMap.get accountId (accounts p) with
  | None => (None, p)
  | Some account =>
      let '(available, p1) := isAccountAvailable account now p in
      (Some {| d_id := id account;
               d_email := email account;
               d_isAvailable := isAvailable account;
               d_errorCount := errorCount account;
               d_cooldownUntil := cooldownUntil account;
               d_autoRecoverAt := autoRecoverAt account;
               d_expiresAt := expiresAt account;
               isCurrentlyAvailable := available;
               cooldownRemaining := remaining (cooldownUntil account) now;
               autoRecoverRemaining := remaining (autoRecoverAt account) now;
               tokenExpiresIn :=
                 if Js.truthy (expiresAt account)
                 then Some (Js.orZero (expiresAt account) - now)
                 else None |},
       p1)
  end.

Definition resetAccountState (accountId : string) (p : AccountPool)
    : bool * AccountPool :=
  match JsMap.get accountId (accounts p) with
  | None => (false, p)
  | Some account =>
      (true, withAccounts (JsMap.set accountId (fullReset account) (accounts p)) p)
  end.

Definition resetAllAccountStates (p : AccountPool) : Z * AccountPool :=
  (Z.of_nat (List.length (accounts p)),
   withAccounts (rewriteAll fullReset (accounts p)) p).

(** The [for (const account of this.accounts.values())] loop of the getter
    [availableCount].  The iterator of a [Map] is live: it reads the entry
    at its position when it gets there and also visits the entries that
    [isAccountAvailable] appends meanwhile.  [i] is the position of the
    iterator; [fuel] bounds the number of visits, [None] meaning that the
    bound was hit. *)
Fixpoint countLoop (fuel i : nat) (now : Z) (count : Z) (p : AccountPool)
    {struct fuel} : option (Z * AccountPool) :=
  match nth_error (JsMap.values (accounts p)) i with
  | None => Some (count, p)
  | Some account =>
      match fuel with
      | O => None
      | S fuel' =>
          let '(ok, p1) := isAccountAvailable account now p in
          countLoop fuel' (S i) now (if ok then count + 1 else count) p1
      end
  end.

(** [get availableCount()].  Each visit either finds an account whose
    auto-recovery is due, and uses it up, or moves on without writing, so
    twice the number of accounts is enough visits (proved below). *)
Definition availableCount (now : Z) (p : AccountPool) : option (Z * AccountPool) :=
  countLoop (2 * List.length (accounts p)) 0 now 0 p.

(** ** The log buffer of the realtime log panel

    [src/renderer/src/components/proxy/ProxyRealtimeLogs.tsx]: the state
    update run for every batch of log entries pushed by the proxy.  The
    entries are not inspected, so their type is left open. *)

Module RealtimeLogs.

Definition maxLogs : nat := 500.

(** [arr.slice(-n)] for a positive [n]: the last [n] elements, or the whole
    array when it is shorter. *)
Definition sliceLast {A : Type} (n : nat) (arr : list A) : list A :=
  skipn (List.length arr - n) arr.

(** The updater given to [setLogs] by the [onProxyLogBatch] listener. *)
Definition appendBatch {A : Type} (prev entries : list A) : list A :=
  let newLogs := prev ++ entries in
  if (maxLogs <? List.length newLogs)%nat then sliceLast maxLogs newLogs
  else newLogs.

End RealtimeLogs.

(** ** The other version of the pool

    [src/unnamed/part_000] holds another version of the class
    [AccountPool].  Its availability predicate, [markNeedsRefresh] and
    [recordError] differ from the ones above and are embedded here; the
    data model is the same. *)

Module Variant.

(** [isAccountAvailable(account, now)] of this version: a pending
    auto-recovery deadline is not a veto of its own. *)
Definition isAccountAvailable (account : ProxyAccount) (now : Z) (p : AccountPool)
    : bool * AccountPool :=
  if Js.andAlso (autoRecoverAt account) (fun t => t <=? now) then
    (true, withAccounts (JsMap.set (id account) (recovered account) (accounts p)) p)
  else if Js.andAlso (cooldownUntil account) (fun t => t >? now) then
    (false, p)
  else if Js.orZero (errorCount account) >=? maxErrorCount (config p) then
    (false, p)
  else if Js.andAlso (expiresAt account)
            (fun e => e + expiryGracePeriodMs (config p) <? now) then
    (false, p)
  else
    (Js.notFalse (isAvailable account), p).

(** [markNeedsRefresh(accountId)] of this version: the deadline is
    [Date.now() + this.config.autoRecoverMs]. *)
Definition markNeedsRefresh (accountId : string) (now : Z) (p : AccountPool)
    : AccountPool :=
  match JsMap.get accountId (accounts p) with
  | Some account =>
      withAccounts
        (JsMap.set accountId
           {| id := id account;
              email := email account;
              idp := idp account;
              isAvailable := Some false;
              errorCount := errorCount account;
              requestCount := requestCount account;
              lastUsed := lastUsed account;
              cooldownUntil := cooldownUntil account;
              autoRecoverAt := Some (now + autoRecoverMs (config p));
              expiresAt := expiresAt account |}
           (accounts p)) p
  | None => p
  end.

(** The legacy boolean argument of [recordError]: [true] stands for
    [quota], [false] for [unknown]. *)
Definition actualErrorType (errorType : ErrorType + bool) : ErrorType :=
  match errorType with
  | inl t => t
  | inr true => quota
  | inr false => unknown
  end.

(** [recordError(accountId, errorType)] of this version; [now'] is the
    clock reading of the nested [markNeedsRefresh] call.  The locals after
    the [switch] are [(cooldownUntil, newErrorCount)]; the [auth] case
    returns before the record and the statistics are written. *)
Definition recordError (accountId : string) (errorType : ErrorType + bool)
    (now now' : Z) (p : AccountPool) : AccountPool :=
  match JsMap.get accountId (accounts p) with
  | None => p
  | Some account =>
      let cooldownUntil0 := cooldownUntil account in
      let newErrorCount0 := Js.orZero (errorCount account) in
      let isAvailable0 := Js.notFalse (isAvailable account) in
      let finish (cooldownUntil1 : option Z) (newErrorCount1 : Z) : AccountPool :=
        let p1 :=
          withAccounts
            (JsMap.set accountId
               {| id := id account;
                  email := email account;
                  idp := idp account;
                  isAvailable := Some isAvailable0;
                  errorCount := Some newErrorCount1;
                  requestCount := requestCount account;
                  lastUsed := Some now;
                  cooldownUntil := cooldownUntil1;
                  autoRecoverAt := autoRecoverAt account;
                  expiresAt := expiresAt account |}
               (accounts p)) p in
        match JsMap.get accountId (accountStats p1) with
        | Some stats =>
            withStats
              (JsMap.set accountId
                 (Stats.mkStats
                    (Stats.requests stats)
                    (Stats.tokens stats)
                    (Stats.inputTokens stats)
                    (Stats.outputTokens stats)
                    (Stats.errors stats + 1)
                    now
                    (Stats.avgResponseTime stats)
                    (Stats.totalResponseTime stats))
                 (accountStats p1)) p1
        | None => p1
        end in
      match actualErrorType errorType with
      | quota => finish (Some (now + quotaResetMs (config p))) newErrorCount0
      | auth => markNeedsRefresh accountId now' p
      | network => finish (Some (now + networkCooldownMs (config p))) newErrorCount0
      | server => finish (Some (now + serverCooldownMs (config p))) (newErrorCount0 + 1)
      | unknown =>
          let newErrorCount1 := newErrorCount0 + 1 in
          if newErrorCount1 >=? maxErrorCount (config p)
          then finish (Some (now + cooldownMs (config p))) newErrorCount1
          else finish cooldownUntil0 newErrorCount1
      end
  end.

End Variant.

(** ** Sequences of calls *)

(** The state-changing calls a client of the class can make.  The getter
    [availableCount] is not listed: it only runs [isAccountAvailable] on
    the stored records. *)
Inductive Op : Type :=
| OpAdd (account : ProxyAccount)
| OpRemove (accountId : string)
| OpUpdate (accountId : string) (updates : AccountUpdates)
| OpNext (now : Z)
| OpNextAvailable (excludeAccountId : string) (now : Z)
| OpSuccess (accountId : string) (tokens now now' : Z)
| OpError (accountId : string) (errorType : ErrorType) (now : Z)
| OpMarkNeedsRefresh (accountId : string) (now : Z)
| OpReset
| OpClear
| OpDiagnostics (accountId : string) (now : Z)
| OpResetAccountState (accountId : string)
| OpResetAll.

Definition step (op : Op) (p : AccountPool) : AccountPool :=
  match op with
  | OpAdd account => addAccount account p
  | OpRemove accountId => removeAccount accountId p
  | OpUpdate accountId updates => updateAccount accountId updates p
  | OpNext now => snd (getNextAccount now p)
  | OpNextAvailable excludeAccountId now =>
      snd (getNextAvailableAccount excludeAccountId now p)
  | OpSuccess accountId tokens now now' => recordSuccess accountId tokens now now' p
  | OpError accountId errorType now => recordError accountId errorType now p
  | OpMarkNeedsRefresh accountId now => markNeedsRefresh accountId now p
  | OpReset => reset p
  | OpClear => clear p
  | OpDiagnostics accountId now => snd (getAccountDiagnostics accountId now p)
  | OpResetAccountState accountId => snd (resetAccountState accountId p)
  | OpResetAll => snd (resetAllAccountStates p)
  end.

Definition run (ops : list Op) (p : AccountPool) : AccountPool :=
  fold_left (fun q op => step op q) ops p.

(** Several calls of [getNextAccount] in a row, one clock reading each,
    with their results. *)
Fixpoint selectMany (times : list Z) (p : AccountPool)
    : list (Js.completion (option ProxyAccount)) * AccountPool :=
  match times with
  | [] => ([], p)
  | now :: later =>
      let '(r, p1) := getNextAccount now p in
      let '(rs, p2) := selectMany later p1 in
      (r :: rs, p2)
  end.

(** The results of a run of selections that each return an account. *)
Definition returned (l : list ProxyAccount)
    : list (Js.completion (option ProxyAccount)) :=
  map (fun a => Js.Normal (Some a)) l.

(** Several calls of [recordError] with the same classification. *)
Fixpoint recordErrors (accountId : string) (errorType : ErrorType)
    (times : list Z) (p : AccountPool) : AccountPool :=
  match times with
  | [] => p
  | now :: later =>
      recordErrors accountId errorType later (recordError accountId errorType now p)
  end.

(** ** Well-formed pools

    [addAccount] files every record under its own [id] and a [Map] holds a
    key once. *)

Definition keyed (m : list (string * ProxyAccount)) : Prop :=
  Forall (fun e => id (snd e) = fst e) m.

Definition wf (p : AccountPool) : Prop :=
  NoDup (JsMap.keys (accounts p)) /\ keyed (accounts p).

(** Calls that leave the [id] field of a stored record alone: every call
    except an [updateAccount] that overrides [id] with another value. *)
Definition keepsId (op : Op) : Prop :=
  match op with
  | OpUpdate accountId updates =>
      u_id updates = None \/ u_id updates = Some accountId
  | _ => True
  end.

(** The pools a client can build with such calls. *)
Inductive reachable : AccountPool -> Prop :=
| reachable_new (c : PartialConfig) : reachable (newPool c)
| reachable_step (op : Op) (p : AccountPool) :
    reachable p -> keepsId op -> reachable (step op p).

(** ** Notions used in the statements *)

(** The guard of the auto-recovery branch:
    [account.autoRecoverAt && account.autoRecoverAt <= now]. *)
Definition dueRecovery (account : ProxyAccount) (now : Z) : bool :=
  Js.andAlso (autoRecoverAt account) (fun t => t <=? now).

(** [account] passes the availability predicate at [now] with no
    auto-recovery deadline reached, so that the check writes nothing. *)
Definition passesAt (p : AccountPool) (now : Z) (account : ProxyAccount) : Prop :=
  dueRecovery account now = false /\
  fst (isAccountAvailable account now p) = true.

(** An account whose cooldown, if any, has run out at [now]. *)
Definition noWait (now : Z) (account : ProxyAccount) : bool :=
  waitOf account now =? 0.

(** Whether a classification counts towards [maxErrorCount]. *)
Definition counted (errorType : ErrorType) : bool :=
  match errorType with
  | server | unknown => true
  | quota | auth | network => false
  end.

(** What the availability checks of a selection may do to the accounts:
    every record stays in place or is replaced by a recovered one. *)
Definition evolves (p q : AccountPool) : Prop :=
  forall k a, JsMap.get k (accounts p) = Some a ->
    exists a', JsMap.get k (accounts q) = Some a' /\
               (a' = a \/ exists b, a' = recovered b).

(** [{ ...account, expiresAt }]: the same account with another token expiry. *)
Definition withExpiresAt (e : option Z) (account : ProxyAccount) : ProxyAccount :=
  {| id := id account;
     email := email account;
     idp := idp account;
     isAvailable := isAvailable account;
     errorCount := errorCount account;
     requestCount := requestCount account;
     lastUsed := lastUsed account;
     cooldownUntil := cooldownUntil account;
     autoRecoverAt := autoRecoverAt account;
     expiresAt := e |}.

(** ** Pools used as concrete inputs *)

(** An account without optional fields, as a caller registers it. *)
Definition bare (name : string) : ProxyAccount :=
  mkAccount name None None None None None None None None None.

(** The record [addAccount] stores for [bare name]. *)
Definition registered (name : string) : ProxyAccount :=
  mkAccount name None None (Some true) (Some 0) (Some 0) (Some 0) None None None.

(** Three accounts registered in a fresh pool with the default settings. *)
Definition poolABC : AccountPool :=
  run [OpAdd (bare "a"); OpAdd (bare "b"); OpAdd (bare "c")] (newPool noOverrides).

(** Two selections move the cursor to the last slot; removing the account
    of that slot leaves the cursor on the length of the list. *)
Definition poolAfterRemove : AccountPool :=
  run [OpNext 1000; OpNext 2000; OpRemove "c"] poolABC.

(** Removing a second account leaves the cursor beyond the length. *)
Definition poolAfterRemoveTwo : AccountPool :=
  run [OpRemove "b"] poolAfterRemove.

(** Two accounts registered in a fresh pool, after one selection. *)
Definition poolABused : AccountPool :=
  run [OpAdd (bare "a"); OpAdd (bare "b"); OpNext 1000] (newPool noOverrides).

(** One account that has failed three times in a row with unclassified
    errors, under the default settings. *)
Definition poolThreeErrors : AccountPool :=
  run [OpAdd (bare "a");
       OpError "a" unknown 1000; OpError "a" unknown 2000; OpError "a" unknown 3000]
      (newPool noOverrides).

(** One account after an authentication error at time 1000. *)
Definition poolAuthError : AccountPool :=
  run [OpAdd (bare "a"); OpError "a" auth 1000] (newPool noOverrides).

(** One account in cooldown after a quota error at time 1000. *)
Definition poolQuotaError : AccountPool :=
  run [OpAdd (bare "a"); OpError "a" quota 1000] (newPool noOverrides).

(** Two accounts under the default settings, both turned down at time
    5000: [a] is resting after a network error at time 1000 (until 11000),
    [b] has no cooldown but waits for auto-recovery after an
    authentication error. *)
Definition poolAllDown : AccountPool :=
  run [OpAdd (bare "a"); OpAdd (bare "b");
       OpError "a" network 1000; OpError "b" auth 1000]
      (newPool noOverrides).

(** Three accounts under the default settings; two selections move the
    cursor to the last slot, [a] then rests after a network error at time
    3000 (until 13000), [b] waits for auto-recovery after an authentication
    error and has no cooldown, and [c], the account of the last slot, is
    removed: both accounts left are turned down at time 5000 and the cursor
    is on the length of the list. *)
Definition poolAllDownStale : AccountPool :=
  run [OpAdd (bare "a"); OpAdd (bare "b"); OpAdd (bare "c");
       OpNext 1000; OpNext 2000;
       OpError "a" network 3000; OpError "b" auth 3000;
       OpRemove "c"]
      (newPool noOverrides).

(** ** Further notions used in the statements *)

(** The pool holds a record under [k], and that record satisfies [P]. *)
Definition storedWith (p : AccountPool) (k : string) (P : ProxyAccount -> Prop) : Prop :=
  exists account, JsMap.get k (accounts p) = Some account /\ P account.

(** [{ errorCount: n }] as the argument of [updateAccount]. *)
Definition errorCountUpdate (n : Z) : AccountUpdates :=
  mkUpdates None None None None (Some (Some n)) None None None None None.

(** The cursor points into the list, or is at its initial position. *)
Definition cursorOk (p : AccountPool) : Prop :=
  (currentIndex p = 0 \/ currentIndex p < List.length (accounts p))%nat.

Definition notRemove (op : Op) : Prop :=
  match op with
  | OpRemove _ => False
  | _ => True
  end.

(** [{}] as the argument of [updateAccount]. *)
Definition noUpdates : AccountUpdates :=
  mkUpdates None None None None None None None None None None.

(** The statistics are kept for the same ids as the accounts, in the same
    order. *)
Definition aligned (p : AccountPool) : Prop :=
  JsMap.keys (accountStats p) = JsMap.keys (accounts p).

(** The step of the loop of [getStats]. *)
Definition addStats (acc : Z * Z * Z) (stats : AccountStats) : Z * Z * Z :=
  let '(totalRequests, totalTokens, totalErrors) := acc in
  (totalRequests + Stats.requests stats,
   totalTokens + Stats.tokens stats,
   totalErrors + Stats.errors stats).

(** Componentwise sum of two triples of totals. *)
Definition plus3 (x y : Z * Z * Z) : Z * Z * Z :=
  let '(a, b, c) := x in
  let '(a', b', c') := y in
  (a + a', b + b', c + c').

(** The entry of the accounts map after an availability check of its
    record at [now]. *)
Definition recoverDue (now : Z) (e : string * ProxyAccount) : string * ProxyAccount :=
  if dueRecovery (snd e) now then (fst e, recovered (snd e)) else e.

(** The number of accounts of a list whose auto-recovery is due. *)
Definition dueCount (now : Z) (l : list ProxyAccount) : nat :=
  List.length (filter (fun a => dueRecovery a now) l).

(** ** Lemmas on [JsMap] *)

Section JsMapFacts.
Context {V : Type}.
Implicit Types (m : list (string * V)) (k : string) (v : V).

Lemma get_set_same k v m : JsMap.get k (JsMap.set k v m) = Some v.
Proof.
  induction m as [|[k' v'] m IH]; simpl.
  - now rewrite String.eqb_refl.
  - destruct (String.eqb k' k) eqn:E; simpl.
    + now rewrite String.eqb_refl.
    + now rewrite E.
Qed.

Lemma get_set_other k k' v m :
  k <> k' -> JsMap.get k (JsMap.set k' v m) = JsMap.get k m.
Proof.
  intros Hne. induction m as [|[k0 v0] m IH]; simpl.
  - destruct (String.eqb k' k) eqn:E; [|reflexivity].
    apply String.eqb_eq in E. congruence.
  - destruct (String.eqb k0 k') eqn:E; simpl.
    + apply String.eqb_eq in E. subst k0.
      destruct (String.eqb k' k) eqn:E'; [|reflexivity].
      apply String.eqb_eq in E'. congruence.
    + now rewrite IH.
Qed.

Lemma get_In k v m : JsMap.get k m = Some v -> In (k, v) m.
Proof.
  induction m as [|[k' v'] m IH]; simpl; [discriminate|].
  destruct (String.eqb k' k) eqn:E.
  - apply String.eqb_eq in E. intros [= ->]. left. now subst.
  - intros H. right. auto.
Qed.


Lemma get_None_keys k m : JsMap.get k m = None <-> ~ In k (JsMap.keys m).
Proof.
  induction m as [|[k' v'] m IH]; simpl.
  - tauto.
  - destruct (String.eqb k' k) eqn:E.
    + apply String.eqb_eq in E. split; [discriminate|]. intros H. exfalso. auto.
    + apply String.eqb_neq in E. rewrite IH. tauto.
Qed.


(** Overwriting a present key keeps every key in place. *)
Lemma keys_set_present k v m :
  In k (JsMap.keys m) -> JsMap.keys (JsMap.set k v m) = JsMap.keys m.
Proof.
  induction m as [|[k' v'] m IH]; simpl; [tauto|].
  destruct (String.eqb k' k) eqn:E; simpl.
  - apply String.eqb_eq in E. now subst.
  - apply String.eqb_neq in E. intros [H|H]; [congruence|]. now rewrite IH.
Qed.

Lemma keys_set_absent k v m :
  ~ In k (JsMap.keys m) -> JsMap.keys (JsMap.set k v m) = JsMap.keys m ++ [k].
Proof.
  induction m as [|[k' v'] m IH]; simpl; [reflexivity|].
  destruct (String.eqb k' k) eqn:E; simpl.
  - apply String.eqb_eq in E. intros H. exfalso. auto.
  - intros H. rewrite IH; auto.
Qed.

Lemma NoDup_keys_set k v m :
  NoDup (JsMap.keys m) -> NoDup (JsMap.keys (JsMap.set k v m)).
Proof.
  intros Hnd. destruct (in_dec string_dec k (JsMap.keys m)) as [Hin|Hout].
  - now rewrite keys_set_present.
  - rewrite keys_set_absent by assumption.
    apply NoDup_app; auto.
    + constructor; [simpl; tauto | constructor].
    + intros x Hx [<-|[]]. contradiction.
Qed.

Lemma keys_delete_incl k m x :
  In x (JsMap.keys (JsMap.delete k m)) -> In x (JsMap.keys m).
Proof.
  induction m as [|[k' v'] m IH]; simpl; [tauto|].
  destruct (String.eqb k' k); simpl; tauto.
Qed.

Lemma NoDup_keys_delete k m :
  NoDup (JsMap.keys m) -> NoDup (JsMap.keys (JsMap.delete k m)).
Proof.
  induction m as [|[k' v'] m IH]; simpl; [trivial|].
  intros Hnd. inversion Hnd as [|? ? Hnotin Hnd']; subst.
  destruct (String.eqb k' k); simpl; [assumption|].
  constructor; auto. intros H. apply Hnotin. eapply keys_delete_incl, H.
Qed.

Lemma In_set k v m e :
  In e (JsMap.set k v m) -> e = (k, v) \/ In e m.
Proof.
  induction m as [|[k' v'] m IH]; simpl.
  - intros [H|[]]. now left.
  - destruct (String.eqb k' k); simpl; intros [H|H]; auto.
    destruct (IH H); auto.
Qed.

Lemma In_delete k m e : In e (JsMap.delete k m) -> In e m.
Proof.
  induction m as [|[k' v'] m IH]; simpl; [tauto|].
  destruct (String.eqb k' k); simpl; tauto.
Qed.

Lemma get_delete_same k m :
  NoDup (JsMap.keys m) -> JsMap.get k (JsMap.delete k m) = None.
Proof.
  induction m as [|[k' v'] m IH]; simpl; [reflexivity|].
  intros Hnd. inversion Hnd as [|? ? Hnotin Hnd']; subst.
  destruct (String.eqb k' k) eqn:E; simpl.
  - apply String.eqb_eq in E. subst. now apply get_None_keys.
  - rewrite E. auto.
Qed.

Lemma get_delete_other k k' m :
  k <> k' -> JsMap.get k (JsMap.delete k' m) = JsMap.get k m.
Proof.
  intros Hne. induction m as [|[k0 v0] m IH]; simpl; [reflexivity|].
  destruct (String.eqb k0 k') eqn:E; simpl.
  - apply String.eqb_eq in E. subst k0.
    destruct (String.eqb k' k) eqn:E'; [|reflexivity].
    apply String.eqb_eq in E'. congruence.
  - now rewrite IH.
Qed.

End JsMapFacts.

(** ** The availability predicate *)

Lemma isAccountAvailable_due account now p :
  dueRecovery account now = true ->
  isAccountAvailable account now p =
    (true, withAccounts (JsMap.set (id account) (recovered account) (accounts p)) p).
Proof.
  unfold dueRecovery, isAccountAvailable. now intros ->.
Qed.

Lemma isAccountAvailable_not_due account now p :
  dueRecovery account now = false ->
  snd (isAccountAvailable account now p) = p.
Proof.
  unfold dueRecovery, isAccountAvailable. intros ->.
  repeat match goal with |- context [if ?c then _ else _] => destruct c end;
    reflexivity.
Qed.

Lemma isAccountAvailable_false account now p :
  fst (isAccountAvailable account now p) = false ->
  snd (isAccountAvailable account now p) = p.
Proof.
  intros H. apply isAccountAvailable_not_due.
  destruct (dueRecovery account now) eqn:E; [|reflexivity].
  rewrite (isAccountAvailable_due _ _ _ E) in H. discriminate.
Qed.

(** The verdict reads the pool only through its settings. *)
Lemma isAccountAvailable_config account now p q :
  config p = config q ->
  fst (isAccountAvailable account now p) = fst (isAccountAvailable account now q).
Proof.
  unfold isAccountAvailable. intros ->.
  repeat match goal with |- context [if ?c then _ else _] => destruct c end;
    reflexivity.
Qed.

Lemma isAccountAvailable_frame account now p :
  accountStats (snd (isAccountAvailable account now p)) = accountStats p /\
  currentIndex (snd (isAccountAvailable account now p)) = currentIndex p /\
  config (snd (isAccountAvailable account now p)) = config p.
Proof.
  destruct (dueRecovery account now) eqn:E.
  - rewrite (isAccountAvailable_due _ _ _ E). simpl. auto.
  - rewrite (isAccountAvailable_not_due _ _ _ E). auto.
Qed.

(** ** The shortest-cooldown fallback *)

Lemma waitOf_nonneg account now : 0 <= waitOf account now.
Proof. unfold waitOf. lia. Qed.

Lemma shortestLoop_seeded accts now best shortestWait :
  exists r, shortestLoop accts now (Some best) shortestWait = Some r /\
            (r = best \/ In r accts).
Proof.
  revert best shortestWait.
  induction accts as [|a accts IH]; intros best shortestWait; simpl.
  - eauto.
  - destruct (belowWait (waitOf a now) shortestWait).
    + destruct (IH a (Some (waitOf a now))) as (r & -> & [->|H]); eauto.
    + destruct (IH best shortestWait) as (r & -> & [->|H]); eauto.
Qed.

(** On a non-empty list the fallback always yields one of its accounts. *)
Lemma shortest_nonempty accts now :
  accts <> [] ->
  exists r, getAccountWithShortestCooldown accts now = Some r /\ In r accts.
Proof.
  destruct accts as [|a accts]; [congruence|]. intros _.
  unfold getAccountWithShortestCooldown. simpl.
  destruct (shortestLoop_seeded accts now a (Some (waitOf a now)))
    as (r & -> & [->|H]); eauto.
Qed.

Lemma shortestLoop_zero accts now best :
  shortestLoop accts now best (Some 0) = best.
Proof.
  induction accts as [|a accts IH]; simpl; [reflexivity|].
  pose proof (waitOf_nonneg a now).
  destruct (waitOf a now <? 0) eqn:E; [lia | apply IH].
Qed.

Lemma shortestLoop_first_zero accts now best shortestWait x :
  (forall s, shortestWait = Some s -> 0 < s) ->
  find (noWait now) accts = Some x ->
  shortestLoop accts now best shortestWait = Some x.
Proof.
  revert best shortestWait.
  induction accts as [|a accts IH]; intros best shortestWait Hpos; simpl;
    [discriminate|].
  unfold noWait at 1. destruct (waitOf a now =? 0) eqn:E.
  - intros [= ->]. apply Z.eqb_eq in E. rewrite E.
    assert (belowWait 0 shortestWait = true) as ->.
    { destruct shortestWait as [s|]; simpl; [|reflexivity].
      specialize (Hpos s eq_refl). lia. }
    apply shortestLoop_zero.
  - intros Hfind. pose proof (waitOf_nonneg a now).
    destruct (belowWait (waitOf a now) shortestWait); apply IH; auto.
    intros s [= <-]. lia.
Qed.

(** When some account has nothing left to wait, the fallback returns the
    first such account of the list. *)
Lemma shortest_first_zero accts now x :
  find (noWait now) accts = Some x ->
  getAccountWithShortestCooldown accts now = Some x.
Proof.
  intros H. unfold getAccountWithShortestCooldown.
  apply shortestLoop_first_zero; [discriminate | assumption].
Qed.

(** ** The selection scan *)

Lemma withIndex_same p : withIndex (currentIndex p) p = p.
Proof. now destruct p. Qed.

Lemma scanLoop_not_null l now remaining p :
  l <> [] -> fst (scanLoop l now remaining p) <> Js.Normal None.
Proof.
  intros Hl. revert p. induction remaining as [|r IH]; intros p; simpl.
  - destruct (shortest_nonempty l now Hl) as (x & -> & _). discriminate.
  - destruct (nth_error l (currentIndex p)) as [a|]; simpl; [|discriminate].
    destruct (isAccountAvailable a now _) as [[|] p2]; simpl;
      [discriminate | apply IH].
Qed.

(** With the cursor inside the snapshot the scan returns an account of it. *)
Lemma scanLoop_in_range l now remaining p :
  (currentIndex p < List.length l)%nat ->
  exists a, fst (scanLoop l now remaining p) = Js.Normal (Some a) /\ In a l.
Proof.
  revert p. induction remaining as [|r IH]; intros p Hc; simpl.
  - destruct (shortest_nonempty l now) as (x & -> & Hx); eauto.
    destruct l; simpl in *; [lia | discriminate].
  - destruct (nth_error l (currentIndex p)) as [a|] eqn:E.
    2:{ apply nth_error_None in E. lia. }
    pose proof (isAccountAvailable_frame a now
      (withIndex ((currentIndex p + 1) mod List.length l)%nat p)) as (_ & Hi & _).
    destruct (isAccountAvailable a now _) as [[|] p2]; simpl in *.
    + exists a. split; [reflexivity|]. eapply nth_error_In, E.
    + apply IH. rewrite Hi. apply Nat.mod_upper_bound. lia.
Qed.

(** A scan in which every account is turned down ends in the fallback, with
    the cursor advanced once per inspection and nothing else written. *)
Lemma scanLoop_none_pass l now remaining p :
  (currentIndex p < List.length l)%nat ->
  (forall a, In a l -> fst (isAccountAvailable a now p) = false) ->
  scanLoop l now remaining p =
    (Js.Normal (getAccountWithShortestCooldown l now),
     withIndex ((currentIndex p + remaining) mod List.length l)%nat p).
Proof.
  revert p. induction remaining as [|r IH]; intros p Hc Hall; simpl.
  - rewrite Nat.add_0_r, Nat.mod_small by assumption.
    now rewrite withIndex_same.
  - destruct (nth_error l (currentIndex p)) as [a|] eqn:E.
    2:{ apply nth_error_None in E. lia. }
    set (p1 := withIndex ((currentIndex p + 1) mod List.length l)%nat p).
    assert (Hf : fst (isAccountAvailable a now p1) = false).
    { rewrite (isAccountAvailable_config a now p1 p) by reflexivity.
      apply Hall. eapply nth_error_In, E. }
    pose proof (isAccountAvailable_false _ _ _ Hf) as Hs.
    destruct (isAccountAvailable a now p1) as [ok p2]. simpl in Hf, Hs. subst.
    rewrite IH.
    + unfold p1, withIndex. simpl. f_equal. f_equal.
      rewrite Nat.Div0.add_mod_idemp_l. f_equal. lia.
    + unfold p1. simpl. apply Nat.mod_upper_bound. lia.
    + intros b Hb. rewrite (isAccountAvailable_config b now p1 p) by reflexivity.
      auto.
Qed.

(** X1: [getNextAccount] returns [null] exactly when the pool holds no
    account, whatever the cursor is. *)
Lemma getNextAccount_null_iff_empty now p :
  fst (getNextAccount now p) = Js.Normal None <-> accounts p = [].
Proof.
  unfold getNextAccount. split.
  - destruct (accounts p) as [|e m] eqn:E; [reflexivity|]. simpl JsMap.values.
    intros H. exfalso. revert H. now apply scanLoop_not_null.
  - now intros ->.
Qed.

(** X2: with the cursor inside the list, [getNextAccount] returns normally,
    and what it returns is one of the accounts of the pool. *)
Lemma getNextAccount_in_range now p :
  (currentIndex p < List.length (accounts p))%nat ->
  exists a, fst (getNextAccount now p) = Js.Normal (Some a) /\
            In a (JsMap.values (accounts p)).
Proof.
  intros Hc. unfold getNextAccount.
  assert (Hc' : (currentIndex p < List.length (JsMap.values (accounts p)))%nat)
    by (unfold JsMap.values; now rewrite length_map).
  destruct (JsMap.values (accounts p)) as [|a l] eqn:E; [simpl in Hc'; lia|].
  now apply scanLoop_in_range.
Qed.

(** ** Selection away from an account *)

Lemma keyed_ids m : keyed m -> map id (JsMap.values m) = JsMap.keys m.
Proof.
  induction 1 as [|[k a] m H _ IH]; simpl in *; [reflexivity|]. now rewrite H, IH.
Qed.

Lemma firstOther_some accountList todo excludeAccountId now p :
  filter (isOther excludeAccountId) accountList <> [] ->
  exists a, fst (firstOther accountList todo excludeAccountId now p) = Some a.
Proof.
  intros Hne. revert p. induction todo as [|b todo IH]; intros p; simpl.
  - destruct (shortest_nonempty _ now Hne) as (r & -> & _). eauto.
  - destruct (isOther excludeAccountId b); [|apply IH].
    destruct (isAccountAvailable b now p) as [[|] p1]; simpl; eauto.
Qed.

Lemma two_ids_one_other (l : list ProxyAccount) excludeAccountId :
  NoDup (map id l) -> (1 < List.length l)%nat ->
  filter (isOther excludeAccountId) l <> [].
Proof.
  destruct l as [|a [|b l]]; simpl; try lia. intros Hnd _.
  inversion Hnd as [|? ? Hnotin _]; subst. simpl in Hnotin.
  unfold isOther at 1.
  destruct (String.eqb (id a) excludeAccountId) eqn:Ea; simpl; [|discriminate].
  unfold isOther at 1.
  destruct (String.eqb (id b) excludeAccountId) eqn:Eb; simpl; [|discriminate].
  apply String.eqb_eq in Ea, Eb. exfalso. apply Hnotin. left. congruence.
Qed.

(** X3: in a well-formed pool [getNextAvailableAccount] returns [null]
    exactly when the pool holds at most one account. *)
Lemma getNextAvailableAccount_null_iff excludeAccountId now p :
  wf p ->
  (fst (getNextAvailableAccount excludeAccountId now p) = None <->
   (List.length (accounts p) <= 1)%nat).
Proof.
  intros [Hnd Hk]. unfold getNextAvailableAccount.
  assert (Hlen : List.length (JsMap.values (accounts p)) = List.length (accounts p))
    by (unfold JsMap.values; apply length_map).
  rewrite Hlen.
  destruct (Nat.leb_spec (List.length (accounts p)) 1) as [Hle|Hgt].
  - simpl. tauto.
  - split; [|lia]. intros H. exfalso.
    destruct (firstOther_some (JsMap.values (accounts p)) (JsMap.values (accounts p))
                excludeAccountId now p) as (a & Ha).
    + apply two_ids_one_other; [|lia]. now rewrite keyed_ids.
    + congruence.
Qed.

(** ** The cursor after a removal *)

(** C3, evaluated on the code: three accounts are added, two selections
    leave the cursor on the third slot, and the third account is removed.
    [removeAccount] does not touch the cursor, which now equals the length
    of the list; the next [getNextAccount] reads [accountList[2]] of a
    two-element snapshot, gets [undefined] and raises in
    [isAccountAvailable].  The same happens after a second removal, with
    the cursor beyond the length of the list. *)
Theorem cursor_not_clamped_after_remove :
  (currentIndex poolAfterRemove = 2%nat /\
   List.length (JsMap.values (accounts poolAfterRemove)) = 2%nat /\
   nth_error (JsMap.values (accounts poolAfterRemove))
             (currentIndex poolAfterRemove) = None /\
   forall now, fst (getNextAccount now poolAfterRemove) = Js.TypeError) /\
  (currentIndex poolAfterRemoveTwo = 2%nat /\
   List.length (JsMap.values (accounts poolAfterRemoveTwo)) = 1%nat /\
   nth_error (JsMap.values (accounts poolAfterRemoveTwo))
             (currentIndex poolAfterRemoveTwo) = None /\
   forall now, fst (getNextAccount now poolAfterRemoveTwo) = Js.TypeError).
Proof.
  repeat split; intros; reflexivity.
Qed.

(** C1, evaluated on the code: the pool left by the removal above holds two
    accounts, yet [getNextAccount] returns neither an account nor [null]:
    the call raises. *)
Theorem getNextAccount_raises_on_nonempty_pool :
  JsMap.keys (accounts poolAfterRemove) = ["a"; "b"]%string /\
  forall now r, fst (getNextAccount now poolAfterRemove) <> Js.Normal r.
Proof.
  split; [reflexivity|]. intros now r. discriminate.
Qed.

(** ** Round-robin rotation *)

Lemma getNextAccount_pass now p a :
  nth_error (JsMap.values (accounts p)) (currentIndex p) = Some a ->
  passesAt p now a ->
  getNextAccount now p =
    (Js.Normal (Some a),
     withIndex ((currentIndex p + 1) mod List.length (JsMap.values (accounts p)))%nat p).
Proof.
  intros Hnth [Hdue Hok]. unfold getNextAccount.
  destruct (JsMap.values (accounts p)) as [|a0 l] eqn:E.
  { destruct (currentIndex p); discriminate. }
  rewrite <- E in *.
  assert (List.length (JsMap.values (accounts p)) = S (List.length l)) as Hlen
    by now rewrite E.
  rewrite Hlen at 1. simpl scanLoop. rewrite Hnth.
  set (p1 := withIndex _ p).
  pose proof (isAccountAvailable_not_due a now p1 Hdue) as Hs.
  pose proof (isAccountAvailable_config a now p1 p eq_refl) as Hf.
  rewrite Hok in Hf.
  destruct (isAccountAvailable a now p1) as [ok p2]. simpl in Hs, Hf. now subst.
Qed.

Lemma selectMany_all_pass times : forall p,
  (currentIndex p < List.length (JsMap.values (accounts p)))%nat ->
  (forall a t, In a (JsMap.values (accounts p)) -> In t times -> passesAt p t a) ->
  selectMany times p =
    (map (fun k => Js.Normal
            (nth_error (JsMap.values (accounts p))
               ((currentIndex p + k) mod List.length (JsMap.values (accounts p)))%nat))
         (seq 0 (List.length times)),
     withIndex ((currentIndex p + List.length times)
                  mod List.length (JsMap.values (accounts p)))%nat p).
Proof.
  induction times as [|t times IH]; intros p Hc Hall.
  - simpl. rewrite Nat.add_0_r, Nat.mod_small by assumption.
    now rewrite withIndex_same.
  - destruct (nth_error (JsMap.values (accounts p)) (currentIndex p)) as [a|] eqn:E.
    2:{ apply nth_error_None in E. lia. }
    cbn [selectMany].
    rewrite (getNextAccount_pass t p a E)
      by (apply Hall; [eapply nth_error_In, E | now left]).
    set (n := List.length (JsMap.values (accounts p))) in *.
    set (p1 := withIndex ((currentIndex p + 1) mod n)%nat p).
    assert (Hacc : accounts p1 = accounts p) by reflexivity.
    rewrite (IH p1).
    + rewrite Hacc. fold n. cbn [List.length seq map]. f_equal.
      * f_equal.
        { rewrite Nat.add_0_r, Nat.mod_small by assumption. now rewrite E. }
        rewrite <- seq_shift, map_map. apply map_ext. intros k.
        unfold p1. cbn [currentIndex withIndex].
        rewrite Nat.Div0.add_mod_idemp_l. do 3 f_equal. lia.
      * unfold p1, withIndex. cbn. f_equal.
        rewrite Nat.Div0.add_mod_idemp_l. f_equal. lia.
    + rewrite Hacc. unfold p1. cbn. apply Nat.mod_upper_bound. fold n. lia.
    + rewrite Hacc. intros b u Hb Hu.
      destruct (Hall b u Hb (or_intror Hu)) as [Hd Hok]. split; [assumption|].
      now rewrite (isAccountAvailable_config b u p1 p eq_refl).
Qed.

(** Reading a list at the indices [c, c+1, ...] modulo its length walks
    through the list rotated by [c]. *)
Lemma rotation_by_index {A : Type} (l : list A) (c : nat) :
  (c < List.length l)%nat ->
  map (fun k => nth_error l ((c + k) mod List.length l)%nat) (seq 0 (List.length l))
  = map Some (skipn c l ++ firstn c l).
Proof.
  intros Hc. set (n := List.length l). apply nth_error_ext. intros i.
  rewrite !nth_error_map, nth_error_seq.
  destruct (Nat.ltb_spec i n) as [Hi|Hi]; cbn [option_map Nat.add].
  - destruct (Nat.lt_ge_cases i (n - c)) as [Hlo|Hhi].
    + rewrite nth_error_app1 by (rewrite length_skipn; fold n; lia).
      rewrite nth_error_skipn, Nat.mod_small by lia.
      destruct (nth_error l (c + i)) eqn:E; [reflexivity|].
      apply nth_error_None in E. fold n in E. lia.
    + rewrite nth_error_app2 by (rewrite length_skipn; fold n; lia).
      rewrite length_skipn, nth_error_firstn. fold n.
      assert (Hmod : ((c + i) mod n = i - (n - c))%nat).
      { replace (c + i)%nat with ((i - (n - c)) + 1 * n)%nat by lia.
        rewrite Nat.Div0.mod_add. apply Nat.mod_small. lia. }
      rewrite Hmod.
      destruct (Nat.ltb_spec (i - (n - c)) c) as [Hj|Hj]; [|lia].
      destruct (nth_error l (i - (n - c))) eqn:E; [reflexivity|].
      apply nth_error_None in E. fold n in E. lia.
  - assert (nth_error (skipn c l ++ firstn c l) i = None) as ->; [|reflexivity].
    apply nth_error_None.
    rewrite length_app, length_skipn, length_firstn. fold n. lia.
Qed.

Lemma firstn_1_skipn {A : Type} (l : list A) (c : nat) (x : A) :
  nth_error l c = Some x -> firstn 1 (skipn c l) = [x].
Proof.
  intros H. pose proof (nth_error_skipn c l 0) as E.
  rewrite Nat.add_0_r, H in E.
  destruct (skipn c l); simpl in *; congruence.
Qed.

(** C4, as amended: in a pool of N accounts that all pass the availability
    predicate, with the cursor at position c inside the list, N+1
    consecutive [getNextAccount] calls return the accounts in insertion
    order rotated to start at slot c, each account once in the first N
    calls, and the last call returns the account of the first call again;
    with the cursor at 0, as in a freshly filled pool, this is insertion
    order followed by the first account. *)
Theorem round_robin_from_cursor p times :
  (currentIndex p < List.length (JsMap.values (accounts p)))%nat ->
  List.length times = S (List.length (JsMap.values (accounts p))) ->
  (forall a t, In a (JsMap.values (accounts p)) -> In t times -> passesAt p t a) ->
  let l := JsMap.values (accounts p) in
  let c := currentIndex p in
  fst (selectMany times p)
    = returned (skipn c l ++ firstn c l) ++ returned (firstn 1 (skipn c l)) /\
  Permutation (skipn c l ++ firstn c l) l /\
  (c = 0%nat -> fst (selectMany times p) = returned l ++ returned (firstn 1 l)).
Proof.
  intros Hc Hlen Hall l c.
  assert (Hmain : fst (selectMany times p)
            = returned (skipn c l ++ firstn c l) ++ returned (firstn 1 (skipn c l))).
  { rewrite selectMany_all_pass by assumption. cbn [fst]. fold l c.
    rewrite Hlen. fold l. rewrite seq_S, map_app. cbn [Nat.add map].
    f_equal.
    - unfold returned.
      rewrite <- (map_map (fun k => nth_error l ((c + k) mod List.length l)%nat)
                          (fun o => Js.Normal o)).
      rewrite rotation_by_index by assumption. now rewrite map_map.
    - destruct (nth_error l c) as [x|] eqn:E.
      2:{ apply nth_error_None in E. fold l in Hc. lia. }
      rewrite (firstn_1_skipn l c x E). cbn.
      replace (c + List.length l)%nat with (c + 1 * List.length l)%nat by lia.
      rewrite Nat.Div0.mod_add, Nat.mod_small by assumption. now rewrite E. }
  split; [exact Hmain|]. split.
  - rewrite Permutation_app_comm. now rewrite firstn_skipn.
  - intros H0. rewrite Hmain, H0. cbn [skipn firstn]. now rewrite app_nil_r.
Qed.

Lemma round_robin_from_cursor_witness :
  fst (selectMany [10; 20; 30; 40] poolABC)
    = returned [registered "a"; registered "b"; registered "c"]
      ++ returned [registered "a"].
Proof.
  refine (proj1 (round_robin_from_cursor poolABC [10; 20; 30; 40] _ _ _)).
  - vm_compute. lia.
  - reflexivity.
  - intros a t Ha _. simpl in Ha.
    destruct Ha as [<-|[<-|[<-|[]]]]; split; reflexivity.
Defined.

(** C4 as stated fails on a pool that has served a selection before: with
    two healthy accounts and the cursor on the second slot, the next calls
    return b, a, b, which is neither insertion order nor a wrap to the
    first account. *)
Lemma round_robin_not_insertion_order :
  JsMap.values (accounts poolABused) = [registered "a"; registered "b"] /\
  (forall a t, In a (JsMap.values (accounts poolABused)) -> passesAt poolABused t a) /\
  fst (selectMany [2000; 3000; 4000] poolABused)
    = returned [registered "b"; registered "a"; registered "b"] /\
  fst (selectMany [2000; 3000; 4000] poolABused)
    <> returned [registered "a"; registered "b"; registered "a"].
Proof.
  split; [reflexivity|]. split.
  - intros a t Ha. simpl in Ha.
    destruct Ha as [<-|[<-|[]]]; split; reflexivity.
  - split; [reflexivity | discriminate].
Qed.

(** ** Error reports *)

Lemma recordError_get accountId errorType now p account :
  JsMap.get accountId (accounts p) = Some account ->
  JsMap.get accountId (accounts (recordError accountId errorType now p))
    = Some (errored (config p) account errorType now) /\
  config (recordError accountId errorType now p) = config p /\
  currentIndex (recordError accountId errorType now p) = currentIndex p.
Proof.
  intros H. unfold recordError. rewrite H.
  cbn [accounts withAccounts accountStats].
  destruct (JsMap.get accountId (accountStats p)); cbn;
    rewrite get_set_same; auto.
Qed.

Lemma recordError_get_other accountId errorType now p k :
  k <> accountId ->
  JsMap.get k (accounts (recordError accountId errorType now p))
    = JsMap.get k (accounts p).
Proof.
  intros Hne. unfold recordError.
  destruct (JsMap.get accountId (accounts p)) as [account|]; [|reflexivity].
  cbn [accounts withAccounts accountStats].
  destruct (JsMap.get accountId (accountStats p)); cbn;
    now rewrite get_set_other.
Qed.

Lemma errored_unknown cfg account now :
  errorCount (errored cfg account unknown now)
    = Some (Js.orZero (errorCount account) + 1) /\
  autoRecoverAt (errored cfg account unknown now) = autoRecoverAt account /\
  (Js.orZero (errorCount account) + 1 >= maxErrorCount cfg ->
   cooldownUntil (errored cfg account unknown now) = Some (now + cooldownMs cfg)).
Proof.
  unfold errored, applyPolicy.
  destruct (Z.geb_spec (Js.orZero (errorCount account) + 1) (maxErrorCount cfg));
    cbn; repeat split; auto; intros; lia.
Qed.

(** C2, as amended: after three consecutive unclassified errors on an
    account whose error count was 0 (with [maxErrorCount] at most 3, as by
    default), the account holds [errorCount = 3] and
    [cooldownUntil = now + cooldownMs], and the availability predicate turns
    it down at every time, before and after [now + cooldownMs] alike, as
    long as no earlier auto-recovery deadline has been reached: once the
    cooldown has run out, [errorCount >= maxErrorCount] still vetoes it. *)
Theorem three_unknown_errors_block p accountId account t1 t2 t3 :
  JsMap.get accountId (accounts p) = Some account ->
  Js.orZero (errorCount account) = 0 ->
  maxErrorCount (config p) <= 3 ->
  let p' := recordErrors accountId unknown [t1; t2; t3] p in
  exists account',
    JsMap.get accountId (accounts p') = Some account' /\
    errorCount account' = Some 3 /\
    cooldownUntil account' = Some (t3 + cooldownMs (config p)) /\
    forall t, dueRecovery account t = false ->
              isAccountAvailable account' t p' = (false, p').
Proof.
  intros Hget H0 Hmax p'. unfold p'. cbn [recordErrors].
  destruct (recordError_get accountId unknown t1 p account Hget) as (G1 & C1 & _).
  set (p1 := recordError accountId unknown t1 p) in *.
  set (a1 := errored (config p) account unknown t1) in *.
  destruct (recordError_get accountId unknown t2 p1 a1 G1) as (G2 & C2 & _).
  set (p2 := recordError accountId unknown t2 p1) in *.
  set (a2 := errored (config p1) a1 unknown t2) in *.
  destruct (recordError_get accountId unknown t3 p2 a2 G2) as (G3 & C3 & _).
  set (p3 := recordError accountId unknown t3 p2) in *.
  set (a3 := errored (config p2) a2 unknown t3) in *.
  destruct (errored_unknown (config p) account t1) as (E1 & R1 & _).
  destruct (errored_unknown (config p1) a1 t2) as (E2 & R2 & _).
  destruct (errored_unknown (config p2) a2 t3) as (E3 & R3 & K3).
  fold a1 in E1, R1. fold a2 in E2, R2. fold a3 in E3, R3, K3.
  rewrite H0 in E1. rewrite E1 in E2. rewrite E2 in E3. cbn in E2, E3.
  assert (Hcfg : config p3 = config p) by congruence.
  assert (Hcfg2 : config p2 = config p) by congruence.
  exists a3. split; [exact G3|]. split; [exact E3|]. split.
  - rewrite <- Hcfg2. apply K3. rewrite E2, Hcfg2. cbn. lia.
  - intros t Hdue. unfold dueRecovery in Hdue.
    assert (Hr : autoRecoverAt a3 = autoRecoverAt account) by congruence.
    unfold isAccountAvailable. rewrite Hr, Hdue, E3, Hcfg. cbn [Js.orZero].
    destruct (Js.andAlso (autoRecoverAt account) (fun t0 => t0 >? t)); [reflexivity|].
    destruct (Js.andAlso (cooldownUntil a3) (fun t0 => t0 >? t)); [reflexivity|].
    destruct (Z.geb_spec 3 (maxErrorCount (config p))); [reflexivity | lia].
Qed.

Lemma three_unknown_errors_block_witness :
  exists account',
    JsMap.get "a"%string (accounts poolThreeErrors) = Some account' /\
    errorCount account' = Some 3 /\
    cooldownUntil account' = Some 63000 /\
    forall t, dueRecovery (registered "a") t = false ->
              isAccountAvailable account' t poolThreeErrors = (false, poolThreeErrors).
Proof.
  refine (three_unknown_errors_block
            (addAccount (bare "a") (newPool noOverrides)) "a" (registered "a")
            1000 2000 3000 _ _ _).
  - reflexivity.
  - reflexivity.
  - vm_compute. discriminate.
Defined.

(** C2 as stated fails: one minute and one millisecond after the third
    unclassified error the cooldown has run out, yet the predicate still
    turns the account down, and it does so at any later time. *)
Lemma unavailable_after_cooldown_elapsed :
  JsMap.get "a"%string (accounts poolThreeErrors)
    = Some (mkAccount "a" None None (Some true) (Some 3) (Some 0) (Some 3000)
              (Some 63000) None None) /\
  cooldownMs (config poolThreeErrors) = 60000 /\
  isAccountAvailable
    (mkAccount "a" None None (Some true) (Some 3) (Some 0) (Some 3000)
       (Some 63000) None None) 63001 poolThreeErrors = (false, poolThreeErrors) /\
  isAccountAvailable
    (mkAccount "a" None None (Some true) (Some 3) (Some 0) (Some 3000)
       (Some 63000) None None) 86400000 poolThreeErrors = (false, poolThreeErrors).
Proof.
  repeat split; reflexivity.
Qed.

(** C5: an authentication error recorded at [now] makes the availability
    predicate turn the account down at every time before
    [now + autoRecoverMs]; from [now + autoRecoverMs] on the predicate
    accepts it and, by itself, stores the recovered record, whose
    [errorCount] is 0. *)
Theorem auth_error_auto_recovers p accountId account now :
  JsMap.get accountId (accounts p) = Some account ->
  id account = accountId ->
  0 < now ->
  0 <= autoRecoverMs (config p) ->
  let p' := recordError accountId auth now p in
  exists account',
    JsMap.get accountId (accounts p') = Some account' /\
    isAvailable account' = Some false /\
    autoRecoverAt account' = Some (now + autoRecoverMs (config p)) /\
    (forall t, t < now + autoRecoverMs (config p) ->
               isAccountAvailable account' t p' = (false, p')) /\
    (forall t, now + autoRecoverMs (config p) <= t ->
       exists p'' account'',
         isAccountAvailable account' t p' = (true, p'') /\
         JsMap.get accountId (accounts p'') = Some account'' /\
         errorCount account'' = Some 0 /\
         isAvailable account'' = Some true /\
         autoRecoverAt account'' = None).
Proof.
  intros Hget Hid Hnow Hms p'.
  destruct (recordError_get accountId auth now p account Hget) as (G & _ & _).
  fold p' in G. set (a' := errored (config p) account auth now) in *.
  assert (Hr : autoRecoverAt a' = Some (now + autoRecoverMs (config p))) by reflexivity.
  assert (Hnz : (now + autoRecoverMs (config p) =? 0) = false) by lia.
  exists a'. split; [exact G|]. split; [reflexivity|]. split; [exact Hr|]. split.
  - intros t Ht. unfold isAccountAvailable. rewrite Hr. cbn [Js.andAlso].
    rewrite Hnz. cbn [negb andb].
    destruct (Z.leb_spec (now + autoRecoverMs (config p)) t); [lia|].
    destruct (Z.gtb_spec (now + autoRecoverMs (config p)) t); [reflexivity | lia].
  - intros t Ht.
    assert (Hdue : dueRecovery a' t = true).
    { unfold dueRecovery. rewrite Hr. cbn [Js.andAlso]. rewrite Hnz. cbn [negb andb].
      apply Z.leb_le. exact Ht. }
    rewrite (isAccountAvailable_due a' t p' Hdue).
    eexists. exists (recovered a'). split; [reflexivity|].
    cbn [accounts withAccounts].
    replace (id a') with accountId by (symmetry; exact Hid).
    rewrite get_set_same. auto.
Qed.

Lemma auth_error_auto_recovers_witness :
  exists account',
    JsMap.get "a"%string (accounts poolAuthError) = Some account' /\
    isAvailable account' = Some false /\
    autoRecoverAt account' = Some 301000 /\
    (forall t, t < 301000 ->
               isAccountAvailable account' t poolAuthError = (false, poolAuthError)) /\
    (forall t, 301000 <= t ->
       exists p'' account'',
         isAccountAvailable account' t poolAuthError = (true, p'') /\
         JsMap.get "a"%string (accounts p'') = Some account'' /\
         errorCount account'' = Some 0 /\
         isAvailable account'' = Some true /\
         autoRecoverAt account'' = None).
Proof.
  refine (auth_error_auto_recovers
            (addAccount (bare "a") (newPool noOverrides)) "a" (registered "a")
            1000 _ _ _ _).
  - reflexivity.
  - reflexivity.
  - lia.
  - vm_compute. discriminate.
Defined.

(** ** Token expiry *)

(** C7: take an account with no auto-recovery deadline, no cooldown in
    force, an error count below the maximum and [isAvailable] not [false].
    With [expiresAt = now - expiryGracePeriodMs - 1] (a timestamp, hence
    positive) the predicate says unavailable; with
    [expiresAt = now - expiryGracePeriodMs + 1] it says available. *)
Theorem token_expiry_boundary p account now :
  Js.truthy (autoRecoverAt account) = false ->
  Js.andAlso (cooldownUntil account) (fun c => c >? now) = false ->
  Js.orZero (errorCount account) < maxErrorCount (config p) ->
  isAvailable account <> Some false ->
  0 < now - expiryGracePeriodMs (config p) - 1 ->
  isAccountAvailable
    (withExpiresAt (Some (now - expiryGracePeriodMs (config p) - 1)) account) now p
    = (false, p) /\
  isAccountAvailable
    (withExpiresAt (Some (now - expiryGracePeriodMs (config p) + 1)) account) now p
    = (true, p).
Proof.
  intros Hr Hc He Ha Hpos.
  assert (Hr1 : forall f, Js.andAlso (autoRecoverAt account) f = false).
  { intros f. unfold Js.truthy in Hr. unfold Js.andAlso.
    destruct (autoRecoverAt account); [now rewrite Hr | reflexivity]. }
  assert (Hav : Js.notFalse (isAvailable account) = true).
  { destruct (isAvailable account) as [[|]|]; cbn; congruence. }
  unfold isAccountAvailable, withExpiresAt.
  cbn [autoRecoverAt cooldownUntil errorCount expiresAt isAvailable].
  rewrite !Hr1, Hc.
  destruct (Z.geb_spec (Js.orZero (errorCount account)) (maxErrorCount (config p)));
    [lia|].
  cbn [Js.andAlso]. split.
  - destruct (Z.eqb_spec (now - expiryGracePeriodMs (config p) - 1) 0); [lia|].
    cbn [negb andb].
    destruct (Z.ltb_spec (now - expiryGracePeriodMs (config p) - 1
                          + expiryGracePeriodMs (config p)) now); [reflexivity | lia].
  - destruct (Z.ltb_spec (now - expiryGracePeriodMs (config p) + 1
                          + expiryGracePeriodMs (config p)) now); [lia|].
    rewrite andb_false_r. now rewrite Hav.
Qed.

Lemma token_expiry_boundary_witness :
  isAccountAvailable (withExpiresAt (Some 939999) (registered "a")) 1000000 poolABC
    = (false, poolABC) /\
  isAccountAvailable (withExpiresAt (Some 940001) (registered "a")) 1000000 poolABC
    = (true, poolABC).
Proof.
  refine (token_expiry_boundary poolABC (registered "a") 1000000 _ _ _ _ _).
  - reflexivity.
  - reflexivity.
  - vm_compute. reflexivity.
  - discriminate.
  - vm_compute. reflexivity.
Defined.

(** ** Success reports *)

(** C8: [recordSuccess] stores, for a registered account, a record with
    [errorCount = 0] and [isAvailable = true]; [cooldownUntil] and every
    other field except [requestCount] and [lastUsed] are the old ones, the
    other accounts and the cursor are untouched, and a cooldown that has
    not run out still makes the predicate turn the account down (no
    auto-recovery deadline being reached). *)
Theorem recordSuccess_frame p accountId account tokens now now' :
  JsMap.get accountId (accounts p) = Some account ->
  let p' := recordSuccess accountId tokens now now' p in
  exists account',
    JsMap.get accountId (accounts p') = Some account' /\
    errorCount account' = Some 0 /\
    isAvailable account' = Some true /\
    cooldownUntil account' = cooldownUntil account /\
    autoRecoverAt account' = autoRecoverAt account /\
    expiresAt account' = expiresAt account /\
    (id account', email account', idp account') = (id account, email account, idp account) /\
    requestCount account' = Some (Js.orZero (requestCount account) + 1) /\
    lastUsed account' = Some now /\
    (forall k, k <> accountId -> JsMap.get k (accounts p') = JsMap.get k (accounts p)) /\
    currentIndex p' = currentIndex p /\
    config p' = config p /\
    (forall t, Js.andAlso (cooldownUntil account) (fun c => c >? t) = true ->
               dueRecovery account t = false ->
               isAccountAvailable account' t p' = (false, p')).
Proof.
  intros Hget p'. unfold p', recordSuccess. rewrite Hget.
  set (a' := succeeded account now).
  set (p1 := withAccounts _ p).
  assert (Hacc : forall q, q = p1 \/
            (exists s, q = withStats s p1) ->
            accounts q = JsMap.set accountId a' (accounts p) /\
            currentIndex q = currentIndex p /\ config q = config p).
  { intros q [->|[s ->]]; auto. }
  set (q := match JsMap.get accountId (accountStats p1) with
            | Some stats => _ | None => p1 end).
  assert (Hq : accounts q = JsMap.set accountId a' (accounts p) /\
               currentIndex q = currentIndex p /\ config q = config p).
  { apply Hacc. unfold q. destruct (JsMap.get accountId (accountStats p1)); eauto. }
  destruct Hq as (Hq & Hi & Hc). exists a'. rewrite Hq, get_set_same.
  repeat (split; [reflexivity|]). split.
  { intros k Hk. now apply get_set_other. }
  split; [exact Hi|]. split; [exact Hc|].
  intros t Hcool Hdue. unfold isAccountAvailable.
  unfold dueRecovery in Hdue. unfold a'.
  cbn [autoRecoverAt cooldownUntil succeeded].
  rewrite Hdue, Hcool.
  destruct (Js.andAlso (autoRecoverAt account) (fun t0 => t0 >? t)); reflexivity.
Qed.

Lemma recordSuccess_frame_witness :
  exists account',
    JsMap.get "a"%string (accounts (recordSuccess "a" 10 2000 2001 poolQuotaError))
      = Some account' /\
    errorCount account' = Some 0 /\
    isAvailable account' = Some true /\
    cooldownUntil account' = Some 3601000.
Proof.
  destruct (recordSuccess_frame poolQuotaError "a"
              (mkAccount "a" None None (Some true) (Some 0) (Some 0) (Some 1000)
                 (Some 3601000) None None) 10 2000 2001 eq_refl)
    as (account' & H1 & H2 & H3 & H4 & _).
  exists account'. auto.
Defined.

(** ** Diagnostics *)

(** C9, as amended: [getAccountDiagnostics] never changes the statistics,
    the cursor or the settings, and it leaves the accounts unchanged unless
    the account it looks up has reached its auto-recovery deadline, in
    which case the availability check it runs stores the recovered record
    under the account's id. *)
Theorem getAccountDiagnostics_effect accountId now p :
  accountStats (snd (getAccountDiagnostics accountId now p)) = accountStats p /\
  currentIndex (snd (getAccountDiagnostics accountId now p)) = currentIndex p /\
  config (snd (getAccountDiagnostics accountId now p)) = config p /\
  accounts (snd (getAccountDiagnostics accountId now p)) =
    match JsMap.get accountId (accounts p) with
    | Some account =>
        if dueRecovery account now
        then JsMap.set (id account) (recovered account) (accounts p)
        else accounts p
    | None => accounts p
    end.
Proof.
  unfold getAccountDiagnostics.
  destruct (JsMap.get accountId (accounts p)) as [account|]; [|auto].
  pose proof (isAccountAvailable_frame account now p) as (Hs & Hi & Hc).
  destruct (dueRecovery account now) eqn:E.
  - rewrite (isAccountAvailable_due account now p E) in *. cbn. auto.
  - pose proof (isAccountAvailable_not_due account now p E) as Hsame.
    destruct (isAccountAvailable account now p) as [ok p1]. cbn in *. now subst.
Qed.

(** C9 as stated fails: five minutes after an authentication error, reading
    the diagnostics of the account rewrites its record (available again,
    deadline cleared). *)
Lemma diagnostics_write_recovery :
  JsMap.get "a"%string (accounts poolAuthError)
    = Some (mkAccount "a" None None (Some false) (Some 0) (Some 0) (Some 1000)
              (Some 0) (Some 301000) None) /\
  JsMap.get "a"%string (accounts (snd (getAccountDiagnostics "a" 301000 poolAuthError)))
    = Some (mkAccount "a" None None (Some true) (Some 0) (Some 0) (Some 1000)
              None None None) /\
  snd (getAccountDiagnostics "a" 301000 poolAuthError) <> poolAuthError.
Proof.
  repeat split; try reflexivity. discriminate.
Qed.

(** ** Fallback ranking *)

Lemma getNextAccount_none_pass now p :
  (currentIndex p < List.length (JsMap.values (accounts p)))%nat ->
  (forall a, In a (JsMap.values (accounts p)) ->
             fst (isAccountAvailable a now p) = false) ->
  getNextAccount now p =
    (Js.Normal (getAccountWithShortestCooldown (JsMap.values (accounts p)) now), p).
Proof.
  intros Hc Hall. unfold getNextAccount.
  destruct (JsMap.values (accounts p)) as [|a l] eqn:E; [simpl in Hc; lia|].
  rewrite <- E in *. rewrite scanLoop_none_pass by assumption.
  replace (currentIndex p + List.length (JsMap.values (accounts p)))%nat
    with (currentIndex p + 1 * List.length (JsMap.values (accounts p)))%nat by lia.
  rewrite Nat.Div0.mod_add, Nat.mod_small by assumption.
  now rewrite withIndex_same.
Qed.

(** X30: in a pool whose cursor is inside the account list, at a time
    [now >= 0] at which every account is turned down by the availability
    predicate, an account [x] with no cooldown set ranks with wait 0
    whatever else keeps it unavailable, and [getNextAccount] returns the
    first account of the list with wait 0, leaving the pool as it is:
    never an account whose cooldown ends after [now], and [x] itself when
    every account listed before it is still cooling down. *)
Theorem fallback_ranks_by_cooldown_only p now x before after :
  (currentIndex p < List.length (JsMap.values (accounts p)))%nat ->
  (forall a, In a (JsMap.values (accounts p)) ->
             fst (isAccountAvailable a now p) = false) ->
  JsMap.values (accounts p) = before ++ x :: after ->
  Js.truthy (cooldownUntil x) = false ->
  0 <= now ->
  waitOf x now = 0 /\
  exists r,
    getNextAccount now p = (Js.Normal (Some r), p) /\
    find (noWait now) (JsMap.values (accounts p)) = Some r /\
    waitOf r now = 0 /\
    (forall y, In y (JsMap.values (accounts p)) ->
               Js.andAlso (cooldownUntil y) (fun c => c >? now) = true -> r <> y) /\
    ((forall y, In y before -> 0 < waitOf y now) -> r = x).
Proof.
  intros Hc Hall Hl Hx Hnow.
  assert (Hw : waitOf x now = 0).
  { unfold waitOf. unfold Js.truthy in Hx.
    destruct (cooldownUntil x) as [c|]; cbn; [|lia].
    destruct (Z.eqb_spec c 0); [lia | discriminate]. }
  split; [exact Hw|].
  assert (Hzero : noWait now x = true) by (unfold noWait; now rewrite Hw).
  destruct (find (noWait now) (JsMap.values (accounts p))) as [r|] eqn:Hfind.
  2:{ exfalso. rewrite (find_none _ _ Hfind x) in Hzero; [discriminate|].
      rewrite Hl. apply in_elt. }
  exists r. destruct (find_some _ _ Hfind) as [Hin Hr].
  unfold noWait in Hr. apply Z.eqb_eq in Hr.
  split; [|split; [reflexivity|split; [exact Hr|split]]].
  - rewrite getNextAccount_none_pass by assumption.
    now rewrite (shortest_first_zero _ _ _ Hfind).
  - intros y _ Hy <-. unfold waitOf in Hr. unfold Js.andAlso in Hy.
    destruct (cooldownUntil r) as [c|]; [|discriminate]. cbn in Hr.
    apply andb_prop in Hy as [_ Hy]. lia.
  - intros Hbefore. rewrite Hl in Hfind.
    assert (Hskip : forall l, (forall y, In y l -> 0 < waitOf y now) ->
              find (noWait now) (l ++ x :: after) = Some x).
    { induction l as [|y l IH]; intros Hpos; cbn.
      - now rewrite Hzero.
      - unfold noWait at 1. pose proof (Hpos y (or_introl eq_refl)).
        destruct (Z.eqb_spec (waitOf y now) 0); [lia|].
        apply IH. intros z Hz. apply Hpos. now right. }
    rewrite (Hskip before Hbefore) in Hfind. congruence.
Qed.

Lemma fallback_ranks_by_cooldown_only_witness :
  waitOf (errored DEFAULT_CONFIG (registered "b") auth 1000) 5000 = 0 /\
  exists r,
    getNextAccount 5000 poolAllDown = (Js.Normal (Some r), poolAllDown) /\
    find (noWait 5000) (JsMap.values (accounts poolAllDown)) = Some r /\
    waitOf r 5000 = 0 /\
    (forall y, In y (JsMap.values (accounts poolAllDown)) ->
               Js.andAlso (cooldownUntil y) (fun c => c >? 5000) = true -> r <> y) /\
    ((forall y, In y [errored DEFAULT_CONFIG (registered "a") network 1000] ->
                0 < waitOf y 5000) ->
     r = errored DEFAULT_CONFIG (registered "b") auth 1000).
Proof.
  refine (fallback_ranks_by_cooldown_only poolAllDown 5000
            (errored DEFAULT_CONFIG (registered "b") auth 1000)
            [errored DEFAULT_CONFIG (registered "a") network 1000] [] _ _ _ _ _).
  - vm_compute. lia.
  - intros a Ha. cbn in Ha. destruct Ha as [<-|[<-|[]]]; reflexivity.
  - reflexivity.
  - reflexivity.
  - lia.
Defined.

(** C10, evaluated on the code: the pool [poolAllDownStale] is built by
    adding [a], [b], [c], selecting twice, reporting a network error on
    [a] and an authentication error on [b] at time 3000 and removing [c].
    At time 5000 no account of it passes the availability predicate; [b]
    has no cooldown set, waits for its auto-recovery and ranks with wait
    0, while the cooldown of [a] ends later, so the shortest-cooldown
    fallback applied to the list picks [b].  Yet [getNextAccount] does not
    return [b]: the cursor was left on the length of the list and the call
    raises before the fallback is reached. *)
Theorem fallback_not_reached_past_the_end :
  exists a b,
    JsMap.values (accounts poolAllDownStale) = [a; b] /\
    id a = "a"%string /\ id b = "b"%string /\
    fst (isAccountAvailable a 5000 poolAllDownStale) = false /\
    fst (isAccountAvailable b 5000 poolAllDownStale) = false /\
    Js.truthy (cooldownUntil b) = false /\
    Js.andAlso (autoRecoverAt b) (fun t => 5000 <? t) = true /\
    waitOf b 5000 = 0 /\
    Js.andAlso (cooldownUntil a) (fun c => c >? 5000) = true /\
    getAccountWithShortestCooldown (JsMap.values (accounts poolAllDownStale)) 5000
      = Some b /\
    currentIndex poolAllDownStale = List.length (JsMap.values (accounts poolAllDownStale)) /\
    fst (getNextAccount 5000 poolAllDownStale) = Js.TypeError /\
    forall r, fst (getNextAccount 5000 poolAllDownStale) <> Js.Normal r.
Proof.
  do 2 eexists. repeat split; try reflexivity. intros r. discriminate.
Qed.

(** ** Evolution of the error count *)

Lemma evolves_refl p : evolves p p.
Proof. intros k a H. eauto. Qed.

Lemma evolves_trans p q r : evolves p q -> evolves q r -> evolves p r.
Proof.
  intros Hpq Hqr k a H.
  destruct (Hpq k a H) as (a1 & H1 & D1).
  destruct (Hqr k a1 H1) as (a2 & H2 & D2).
  exists a2. split; [exact H2|].
  destruct D2 as [->|?]; auto.
Qed.

Lemma evolves_same_accounts p q : accounts q = accounts p -> evolves p q.
Proof. intros E k a H. rewrite E. eauto. Qed.

Lemma isAccountAvailable_evolves b now p :
  evolves p (snd (isAccountAvailable b now p)).
Proof.
  destruct (dueRecovery b now) eqn:E.
  - rewrite (isAccountAvailable_due b now p E). intros k a H.
    cbn [snd accounts withAccounts].
    destruct (string_dec k (id b)) as [->|Hne].
    + rewrite get_set_same. eauto.
    + rewrite get_set_other by assumption. eauto.
  - rewrite (isAccountAvailable_not_due b now p E). apply evolves_refl.
Qed.

Lemma scanLoop_evolves l now remaining p :
  evolves p (snd (scanLoop l now remaining p)).
Proof.
  revert p. induction remaining as [|r IH]; intros p; cbn [scanLoop].
  - apply evolves_refl.
  - set (p1 := withIndex _ p).
    assert (H1 : evolves p p1) by now apply evolves_same_accounts.
    destruct (nth_error l (currentIndex p)) as [b|]; [|exact H1].
    pose proof (isAccountAvailable_evolves b now p1) as H2.
    destruct (isAccountAvailable b now p1) as [[|] p2]; cbn [snd] in *.
    + exact (evolves_trans _ _ _ H1 H2).
    + exact (evolves_trans _ _ _ (evolves_trans _ _ _ H1 H2) (IH p2)).
Qed.

Lemma firstOther_evolves l todo excludeAccountId now p :
  evolves p (snd (firstOther l todo excludeAccountId now p)).
Proof.
  revert p. induction todo as [|b todo IH]; intros p; cbn [firstOther].
  - apply evolves_refl.
  - destruct (isOther excludeAccountId b); [|apply IH].
    pose proof (isAccountAvailable_evolves b now p) as H2.
    destruct (isAccountAvailable b now p) as [[|] p2]; cbn [snd] in *.
    + exact H2.
    + eapply evolves_trans; [exact H2 | apply IH].
Qed.

Lemma getNextAccount_evolves now p : evolves p (snd (getNextAccount now p)).
Proof.
  unfold getNextAccount. destruct (JsMap.values (accounts p)).
  - apply evolves_refl.
  - apply scanLoop_evolves.
Qed.

Lemma getNextAvailableAccount_evolves excludeAccountId now p :
  evolves p (snd (getNextAvailableAccount excludeAccountId now p)).
Proof.
  unfold getNextAvailableAccount.
  destruct (List.length (JsMap.values (accounts p)) <=? 1)%nat.
  - apply evolves_refl.
  - apply firstOther_evolves.
Qed.

Lemma getAccountDiagnostics_evolves accountId now p :
  evolves p (snd (getAccountDiagnostics accountId now p)).
Proof.
  unfold getAccountDiagnostics.
  destruct (JsMap.get accountId (accounts p)) as [b|]; [|apply evolves_refl].
  pose proof (isAccountAvailable_evolves b now p) as H.
  destruct (isAccountAvailable b now p) as [ok p1]. exact H.
Qed.

Lemma rewriteAll_get f (entries acc : list (string * ProxyAccount)) k :
  In k (JsMap.keys entries) \/ (exists b, JsMap.get k acc = Some (f b)) ->
  exists b,
    JsMap.get k
      (fold_left (fun m '(k0, account) => JsMap.set k0 (f account) m) entries acc)
    = Some (f b).
Proof.
  revert acc. induction entries as [|[k1 a1] entries IH]; intros acc; cbn.
  - intros [[]|H]. exact H.
  - intros H. apply IH.
    destruct (string_dec k k1) as [->|Hne].
    + right. exists a1. apply get_set_same.
    + destruct H as [[H|H]|(b & H)]; [congruence | now left |].
      right. exists b. now rewrite get_set_other.
Qed.

Lemma get_keys {V : Type} k (v : V) m :
  JsMap.get k m = Some v -> In k (JsMap.keys m).
Proof.
  intros H. apply get_In in H. change k with (fst (k, v)). now apply in_map.
Qed.

Lemma errored_errorCount cfg account errorType now :
  errorCount (errored cfg account errorType now)
    = Some (Js.orZero (errorCount account) + (if counted errorType then 1 else 0)).
Proof.
  unfold errored, applyPolicy. destruct errorType; cbn;
    try (rewrite Z.add_0_r; reflexivity); try reflexivity.
  destruct (Js.orZero (errorCount account) + 1 >=? maxErrorCount cfg); reflexivity.
Qed.

Lemma recordSuccess_accounts accountId tokens now now' p :
  accounts (recordSuccess accountId tokens now now' p) =
    match JsMap.get accountId (accounts p) with
    | Some account => JsMap.set accountId (succeeded account now) (accounts p)
    | None => accounts p
    end.
Proof.
  unfold recordSuccess.
  destruct (JsMap.get accountId (accounts p)) as [account|];
    match goal with
    | |- context [JsMap.get accountId (accountStats ?q)] =>
        destruct (JsMap.get accountId (accountStats q))
    end; reflexivity.
Qed.

(** A call on another key than the one looked up: the record is the old one. *)
Ltac other_key accountId p H :=
  destruct (JsMap.get accountId (accounts p)); cbn;
  [rewrite get_set_other by congruence|]; exact H.

(** C6, as amended: what each call does to the record filed under a key
    [k] and to its [errorCount].  Every call except [removeAccount] of [k]
    and [clear] keeps a record under [k].  An error report on [k] adds
    exactly 1 when it is classified [server] or [unknown] and leaves the
    count as it is (as a number) for [quota], [auth] and [network]; a
    success report on [k] sets it to 0; a selection or a diagnostics read
    leaves the record or replaces it by a recovered one, with count 0;
    [addAccount] under [k], [resetAccountState] of [k], [reset] and
    [resetAllAccountStates] set it to 0; [markNeedsRefresh] and the calls
    made for other keys do not change it.  The exception is
    [updateAccount] on [k]: it stores the record merged with the caller's
    fields, so the count changes exactly as the caller asks and stays as it
    is when the updates carry no [errorCount].  Every auto-recovery
    performed by the availability predicate stores a record with count
    0. *)
Theorem errorCount_evolution op p k a :
  NoDup (JsMap.keys (accounts p)) ->
  JsMap.get k (accounts p) = Some a ->
  match op with
  | OpError accountId errorType _ =>
      storedWith (step op p) k (fun a' =>
        if String.eqb accountId k
        then errorCount a' =
               Some (Js.orZero (errorCount a) + (if counted errorType then 1 else 0))
        else a' = a)
  | OpSuccess accountId _ _ _ =>
      storedWith (step op p) k (fun a' =>
        if String.eqb accountId k then errorCount a' = Some 0 else a' = a)
  | OpNext _ | OpNextAvailable _ _ | OpDiagnostics _ _ =>
      storedWith (step op p) k (fun a' =>
        a' = a \/ (errorCount a' = Some 0 /\ exists b, a' = recovered b))
  | OpAdd account =>
      storedWith (step op p) k (fun a' =>
        if String.eqb (id account) k then errorCount a' = Some 0 else a' = a)
  | OpResetAccountState accountId =>
      storedWith (step op p) k (fun a' =>
        if String.eqb accountId k then errorCount a' = Some 0 else a' = a)
  | OpReset | OpResetAll =>
      storedWith (step op p) k (fun a' => errorCount a' = Some 0)
  | OpUpdate accountId updates =>
      storedWith (step op p) k (fun a' =>
        if String.eqb accountId k
        then a' = merge a updates /\
             errorCount a' = override (errorCount a) (u_errorCount updates) /\
             (u_errorCount updates = None -> errorCount a' = errorCount a)
        else a' = a)
  | OpMarkNeedsRefresh accountId _ =>
      storedWith (step op p) k (fun a' =>
        errorCount a' = errorCount a /\ (accountId <> k -> a' = a))
  | OpRemove accountId =>
      JsMap.get k (accounts (step op p)) =
        if String.eqb accountId k then None else Some a
  | OpClear => JsMap.get k (accounts (step op p)) = None
  end /\
  (forall account now, dueRecovery account now = true ->
     fst (isAccountAvailable account now p) = true /\
     JsMap.get (id account) (accounts (snd (isAccountAvailable account now p)))
       = Some (recovered account) /\
     errorCount (recovered account) = Some 0).
Proof.
  intros Hnd Ha. split.
  2:{ intros account now Hdue. rewrite (isAccountAvailable_due account now p Hdue).
      cbn. now rewrite get_set_same. }
  assert (Hev : forall q, evolves p q ->
            storedWith q k (fun a' =>
              a' = a \/ (errorCount a' = Some 0 /\ exists b, a' = recovered b))).
  { intros q Hq. destruct (Hq k a Ha) as (a1 & H1 & D).
    exists a1. split; [exact H1|].
    destruct D as [->|(b & ->)]; [now left | right; eauto]. }
  destruct op; cbn [step].
  - (* addAccount *)
    unfold addAccount, storedWith. cbn.
    destruct (String.eqb_spec (id account) k) as [E|Hne].
    + rewrite E, get_set_same. eexists. split; reflexivity.
    + rewrite get_set_other by congruence. exists a. now split.
  - (* removeAccount *)
    unfold removeAccount. cbn.
    destruct (String.eqb_spec accountId k) as [->|Hne].
    + now apply get_delete_same.
    + now rewrite get_delete_other by congruence.
  - (* updateAccount *)
    unfold updateAccount.
    destruct (String.eqb_spec accountId k) as [->|Hne].
    + rewrite Ha. unfold storedWith. cbn. rewrite get_set_same.
      eexists. split; [reflexivity|]. split; [reflexivity|]. split; [reflexivity|].
      cbn. now intros ->.
    + exists a. split; [other_key accountId p Ha | reflexivity].
  - (* getNextAccount *)
    exact (Hev _ (getNextAccount_evolves now p)).
  - (* getNextAvailableAccount *)
    exact (Hev _ (getNextAvailableAccount_evolves excludeAccountId now p)).
  - (* recordSuccess *)
    unfold storedWith. rewrite recordSuccess_accounts.
    destruct (String.eqb_spec accountId k) as [->|Hne].
    + rewrite Ha, get_set_same. eexists. split; reflexivity.
    + exists a. split; [other_key accountId p Ha | reflexivity].
  - (* recordError *)
    unfold storedWith.
    destruct (String.eqb_spec accountId k) as [->|Hne].
    + destruct (recordError_get k errorType now p a Ha) as (G & _).
      rewrite G. eexists. split; [reflexivity|]. apply errored_errorCount.
    + rewrite recordError_get_other by congruence. exists a. now split.
  - (* markNeedsRefresh *)
    unfold markNeedsRefresh.
    destruct (string_dec accountId k) as [->|Hne].
    + rewrite Ha. unfold storedWith. cbn. rewrite get_set_same.
      eexists. split; [reflexivity|]. split; [reflexivity|]. now intros [].
    + exists a. split; [other_key accountId p Ha | now split].
  - (* reset *)
    unfold storedWith. cbn. unfold rewriteAll.
    destruct (rewriteAll_get softReset (accounts p) (accounts p) k) as (b & Hb).
    { left. eapply get_keys, Ha. }
    rewrite Hb. eexists. split; reflexivity.
  - (* clear *)
    reflexivity.
  - (* getAccountDiagnostics *)
    exact (Hev _ (getAccountDiagnostics_evolves accountId now p)).
  - (* resetAccountState *)
    unfold resetAccountState.
    destruct (String.eqb_spec accountId k) as [->|Hne].
    + rewrite Ha. unfold storedWith. cbn. rewrite get_set_same.
      eexists. split; reflexivity.
    + exists a. split; [other_key accountId p Ha | reflexivity].
  - (* resetAllAccountStates *)
    unfold storedWith. cbn. unfold rewriteAll.
    destruct (rewriteAll_get fullReset (accounts p) (accounts p) k) as (b & Hb).
    { left. eapply get_keys, Ha. }
    rewrite Hb. eexists. split; reflexivity.
Qed.

Lemma errorCount_evolution_witness :
  storedWith (recordError "a" server 5000 poolABC) "a"
    (fun a' => errorCount a' = Some (0 + 1)) /\
  (forall account now, dueRecovery account now = true ->
     fst (isAccountAvailable account now poolABC) = true /\
     JsMap.get (id account) (accounts (snd (isAccountAvailable account now poolABC)))
       = Some (recovered account) /\
     errorCount (recovered account) = Some 0).
Proof.
  refine (errorCount_evolution (OpError "a" server 5000) poolABC "a"
            (registered "a") _ _).
  - vm_compute. repeat constructor; cbn; intuition discriminate.
  - reflexivity.
Defined.

(** C6 as stated fails for [updateAccount]: in the pool of three fresh
    accounts, [updateAccount("a", { errorCount: 5 })] raises the count of
    [a] from 0 to 5, and [{ errorCount: 1 }] raises it by exactly 1,
    although no error was reported. *)
Lemma updateAccount_raises_errorCount :
  (exists a, getAccount "a" poolABC = Some a /\ errorCount a = Some 0) /\
  (exists a', getAccount "a" (step (OpUpdate "a" (errorCountUpdate 5)) poolABC) = Some a' /\
              errorCount a' = Some 5) /\
  (exists a', getAccount "a" (step (OpUpdate "a" (errorCountUpdate 1)) poolABC) = Some a' /\
              errorCount a' = Some (0 + 1)).
Proof.
  split; [|split]; eexists; split; reflexivity.
Qed.

(** ** Well-formedness is an invariant *)

Lemma wf_set p k v :
  wf p -> id v = k -> wf (withAccounts (JsMap.set k v (accounts p)) p).
Proof.
  intros [Hnd Hk] Hid. split; cbn.
  - now apply NoDup_keys_set.
  - apply Forall_forall. intros e He.
    destruct (In_set _ _ _ _ He) as [->|Hin]; [exact Hid|].
    unfold keyed in Hk. rewrite Forall_forall in Hk. auto.
Qed.

Lemma wf_same_accounts p q : accounts q = accounts p -> wf p -> wf q.
Proof. unfold wf. now intros ->. Qed.

Lemma wf_set_as p q k v :
  wf p -> id v = k -> accounts q = JsMap.set k v (accounts p) -> wf q.
Proof.
  intros Hwf Hid E.
  apply (wf_same_accounts (withAccounts (JsMap.set k v (accounts p)) p));
    [exact E | now apply wf_set].
Qed.

Lemma wf_get p k a : wf p -> JsMap.get k (accounts p) = Some a -> id a = k.
Proof.
  intros [_ Hk] H. apply get_In in H. unfold keyed in Hk.
  rewrite Forall_forall in Hk. exact (Hk _ H).
Qed.

Lemma isAccountAvailable_wf b now p :
  wf p -> wf (snd (isAccountAvailable b now p)).
Proof.
  intros Hwf. destruct (dueRecovery b now) eqn:E.
  - rewrite (isAccountAvailable_due b now p E). now apply wf_set.
  - now rewrite (isAccountAvailable_not_due b now p E).
Qed.

Lemma scanLoop_wf l now remaining p :
  wf p -> wf (snd (scanLoop l now remaining p)).
Proof.
  revert p. induction remaining as [|r IH]; intros p Hwf; cbn [scanLoop];
    [exact Hwf|].
  set (p1 := withIndex _ p).
  assert (H1 : wf p1) by (now apply (wf_same_accounts p)).
  destruct (nth_error l (currentIndex p)) as [b|]; [|exact H1].
  pose proof (isAccountAvailable_wf b now p1 H1) as H2.
  destruct (isAccountAvailable b now p1) as [[|] p2]; cbn [snd] in *; auto.
Qed.

Lemma firstOther_wf l todo excludeAccountId now p :
  wf p -> wf (snd (firstOther l todo excludeAccountId now p)).
Proof.
  revert p. induction todo as [|b todo IH]; intros p Hwf; cbn [firstOther];
    [exact Hwf|].
  destruct (isOther excludeAccountId b); [|now apply IH].
  pose proof (isAccountAvailable_wf b now p Hwf) as H2.
  destruct (isAccountAvailable b now p) as [[|] p2]; cbn [snd] in *; auto.
Qed.

Lemma rewriteAll_wf f (entries acc : list (string * ProxyAccount)) :
  (forall a, id (f a) = id a) ->
  keyed entries ->
  NoDup (JsMap.keys acc) /\ keyed acc ->
  NoDup (JsMap.keys
           (fold_left (fun m '(k0, account) => JsMap.set k0 (f account) m) entries acc)) /\
  keyed (fold_left (fun m '(k0, account) => JsMap.set k0 (f account) m) entries acc).
Proof.
  intros Hf. revert acc.
  induction entries as [|[k1 a1] entries IH]; intros acc He Hacc; cbn; [exact Hacc|].
  inversion He as [|? ? Hk1 He']; subst. cbn in Hk1.
  apply IH; [exact He'|]. destruct Hacc as [Hnd Hk]. split.
  - now apply NoDup_keys_set.
  - apply Forall_forall. intros e Hin.
    destruct (In_set _ _ _ _ Hin) as [->|Hin']; [cbn; now rewrite Hf|].
    unfold keyed in Hk. rewrite Forall_forall in Hk. auto.
Qed.

Lemma recordError_accounts accountId errorType now p :
  accounts (recordError accountId errorType now p) =
    match JsMap.get accountId (accounts p) with
    | Some account =>
        JsMap.set accountId (errored (config p) account errorType now) (accounts p)
    | None => accounts p
    end.
Proof.
  unfold recordError.
  destruct (JsMap.get accountId (accounts p)) as [account|]; [|reflexivity].
  cbn [accounts withAccounts accountStats].
  destruct (JsMap.get accountId (accountStats p)); reflexivity.
Qed.

Lemma errored_id cfg account errorType now :
  id (errored cfg account errorType now) = id account.
Proof.
  unfold errored.
  destruct (applyPolicy cfg account errorType now) as [[[e c] r] i]. reflexivity.
Qed.

Lemma step_wf op p : wf p -> keepsId op -> wf (step op p).
Proof.
  intros Hwf Hop. destruct op; cbn [step].
  - (* addAccount *)
    unfold addAccount.
    eapply (wf_set_as p _ (id account)); [exact Hwf | | cbn; reflexivity].
    reflexivity.
  - (* removeAccount *)
    destruct Hwf as [Hnd Hk]. split; cbn.
    + now apply NoDup_keys_delete.
    + apply Forall_forall. intros e He. apply In_delete in He.
      unfold keyed in Hk. rewrite Forall_forall in Hk. auto.
  - (* updateAccount *)
    unfold updateAccount.
    destruct (JsMap.get accountId (accounts p)) as [a|] eqn:E; [|exact Hwf].
    apply wf_set; [exact Hwf|]. cbn. pose proof (wf_get p accountId a Hwf E).
    destruct Hop as [->| ->]; cbn; congruence.
  - (* getNextAccount *)
    unfold getNextAccount. destruct (JsMap.values (accounts p));
      [exact Hwf | now apply scanLoop_wf].
  - (* getNextAvailableAccount *)
    unfold getNextAvailableAccount.
    destruct (List.length (JsMap.values (accounts p)) <=? 1)%nat;
      [exact Hwf | now apply firstOther_wf].
  - (* recordSuccess *)
    pose proof (recordSuccess_accounts accountId tokens now now' p) as E.
    destruct (JsMap.get accountId (accounts p)) as [a|] eqn:G.
    + refine (wf_set_as p _ accountId _ Hwf _ E).
      exact (wf_get p accountId a Hwf G).
    + now apply (wf_same_accounts p).
  - (* recordError *)
    pose proof (recordError_accounts accountId errorType now p) as E.
    destruct (JsMap.get accountId (accounts p)) as [a|] eqn:G.
    + refine (wf_set_as p _ accountId _ Hwf _ E).
      rewrite errored_id. exact (wf_get p accountId a Hwf G).
    + now apply (wf_same_accounts p).
  - (* markNeedsRefresh *)
    unfold markNeedsRefresh.
    destruct (JsMap.get accountId (accounts p)) as [a|] eqn:G; [|exact Hwf].
    apply wf_set; [exact Hwf|]. exact (wf_get p accountId a Hwf G).
  - (* reset *)
    destruct Hwf as [Hnd Hk]. unfold wf, reset. cbn. unfold rewriteAll.
    apply rewriteAll_wf; auto.
  - (* clear *)
    split; constructor.
  - (* getAccountDiagnostics *)
    unfold getAccountDiagnostics.
    destruct (JsMap.get accountId (accounts p)) as [b|]; [|exact Hwf].
    pose proof (isAccountAvailable_wf b now p Hwf) as H.
    destruct (isAccountAvailable b now p) as [ok p1]. exact H.
  - (* resetAccountState *)
    unfold resetAccountState.
    destruct (JsMap.get accountId (accounts p)) as [a|] eqn:G; [|exact Hwf].
    apply wf_set; [exact Hwf|]. exact (wf_get p accountId a Hwf G).
  - (* resetAllAccountStates *)
    destruct Hwf as [Hnd Hk]. unfold wf. cbn. unfold rewriteAll.
    apply rewriteAll_wf; auto.
Qed.

(** X4: every pool built from [new AccountPool(...)] by calls that do not
    rename a record is well formed: each key is held once and each record
    is filed under its own [id]. *)
Lemma reachable_wf p : reachable p -> wf p.
Proof.
  induction 1 as [c|op p _ IH Hop].
  - split; constructor.
  - now apply step_wf.
Qed.

(** ** Further properties of the selection *)


Lemma getNextAccount_in_range_witness :
  exists a, fst (getNextAccount 1000 poolABC) = Js.Normal (Some a) /\
            In a (JsMap.values (accounts poolABC)).
Proof.
  apply (getNextAccount_in_range 1000 poolABC). vm_compute. lia.
Defined.

Lemma getNextAvailableAccount_null_iff_witness :
  fst (getNextAvailableAccount "a" 1000 poolABC) = None <->
  (List.length (accounts poolABC) <= 1)%nat.
Proof.
  apply (getNextAvailableAccount_null_iff "a" 1000 poolABC).
  split.
  - repeat constructor; cbn; intuition discriminate.
  - repeat constructor.
Defined.

Lemma reachable_wf_witness : wf poolABC.
Proof.
  apply reachable_wf.
  exact (reachable_step (OpAdd (bare "c")) _
           (reachable_step (OpAdd (bare "b")) _
              (reachable_step (OpAdd (bare "a")) _
                 (reachable_new noOverrides) I) I) I).
Defined.

Lemma withIndex_withIndex i j p : withIndex i (withIndex j p) = withIndex i p.
Proof. reflexivity. Qed.

(** The scan seen from a start position [c0]: after [j] inspections the
    cursor is [(c0 + j) mod n]; if the next [d] accounts are turned down
    and the one after them passes, the scan stops there. *)
Lemma scanLoop_stops_at l now c0 a : forall d j remaining p,
  l <> [] ->
  currentIndex p = ((c0 + j) mod List.length l)%nat ->
  (forall i, (j <= i < j + d)%nat ->
     exists b, nth_error l ((c0 + i) mod List.length l)%nat = Some b /\
               fst (isAccountAvailable b now p) = false) ->
  nth_error l ((c0 + (j + d)) mod List.length l)%nat = Some a ->
  fst (isAccountAvailable a now p) = true ->
  (d < remaining)%nat ->
  scanLoop l now remaining p =
    (Js.Normal (Some a),
     snd (isAccountAvailable a now
            (withIndex ((c0 + (j + d) + 1) mod List.length l)%nat p))).
Proof.
  induction d as [|d IH]; intros j remaining p Hl Hc Hfail Ha Hok Hrem;
    (destruct remaining as [|r]; [lia|]); cbn [scanLoop]; rewrite Hc.
  - rewrite Nat.add_0_r in *. rewrite Ha.
    rewrite Nat.Div0.add_mod_idemp_l.
    set (p1 := withIndex _ p).
    rewrite <- (isAccountAvailable_config a now p1 p eq_refl) in Hok.
    destruct (isAccountAvailable a now p1) as [ok p2]. cbn in Hok. now subst.
  - destruct (Hfail j ltac:(lia)) as (b & Hb & Hbf). rewrite Hb.
    rewrite Nat.Div0.add_mod_idemp_l.
    set (p1 := withIndex _ p).
    assert (Hf : fst (isAccountAvailable b now p1) = false)
      by now rewrite (isAccountAvailable_config b now p1 p eq_refl).
    pose proof (isAccountAvailable_false _ _ _ Hf) as Hs.
    destruct (isAccountAvailable b now p1) as [ok p2]. cbn in Hf, Hs. subst.
    rewrite (IH (S j) r p1); try assumption.
    + unfold p1. rewrite withIndex_withIndex.
      replace (c0 + (S j + d) + 1)%nat with (c0 + (j + S d) + 1)%nat by lia.
      reflexivity.
    + unfold p1. cbn. f_equal. lia.
    + intros i Hi. destruct (Hfail i ltac:(lia)) as (b' & Hb' & Hf').
      exists b'. split; [exact Hb'|].
      now rewrite (isAccountAvailable_config b' now p1 p eq_refl).
    + rewrite <- Ha. f_equal. f_equal. lia.
    + now rewrite (isAccountAvailable_config a now p1 p eq_refl).
    + lia.
Qed.

Lemma rotation_nth {A : Type} (l : list A) (c i : nat) :
  (c < List.length l)%nat -> (i < List.length l)%nat ->
  nth_error l ((c + i) mod List.length l)%nat
    = nth_error (skipn c l ++ firstn c l) i.
Proof.
  intros Hc Hi. pose proof (rotation_by_index l c Hc) as E.
  apply (f_equal (fun x => nth_error x i)) in E.
  rewrite !nth_error_map, nth_error_seq in E.
  destruct (Nat.ltb_spec i (List.length l)); [|lia]. cbn in E.
  destruct (nth_error (skipn c l ++ firstn c l) i); cbn in E; congruence.
Qed.

(** X5: when the cursor is inside the account list, [getNextAccount] walks
    the accounts in insertion order, cyclically from the cursor, and returns
    the first one the availability predicate accepts (the accounts walked
    over before it being turned down); the cursor is left on the slot after
    it, and nothing is written except by the availability check of the
    account returned. *)
Theorem getNextAccount_first_passing now p pre a post :
  (currentIndex p < List.length (JsMap.values (accounts p)))%nat ->
  skipn (currentIndex p) (JsMap.values (accounts p))
    ++ firstn (currentIndex p) (JsMap.values (accounts p)) = pre ++ a :: post ->
  (forall b, In b pre -> fst (isAccountAvailable b now p) = false) ->
  fst (isAccountAvailable a now p) = true ->
  getNextAccount now p =
    (Js.Normal (Some a),
     snd (isAccountAvailable a now
            (withIndex ((currentIndex p + List.length pre + 1)
                          mod List.length (JsMap.values (accounts p)))%nat p))).
Proof.
  intros Hc Hrot Hfail Hok. unfold getNextAccount.
  destruct (JsMap.values (accounts p)) as [|a0 l0] eqn:E; [cbn in Hc; lia|].
  rewrite <- E in *. set (l := JsMap.values (accounts p)) in *.
  assert (Hlen : List.length l = (List.length pre + S (List.length post))%nat).
  { rewrite <- (firstn_skipn (currentIndex p) l) at 1.
    rewrite length_app, Nat.add_comm, <- length_app, Hrot, length_app. reflexivity. }
  rewrite (scanLoop_stops_at l now (currentIndex p) a (List.length pre) 0
             (List.length l) p).
  - reflexivity.
  - rewrite E. discriminate.
  - now rewrite Nat.add_0_r, Nat.mod_small.
  - intros i Hi. rewrite rotation_nth by lia. rewrite Hrot.
    rewrite nth_error_app1 by lia.
    destruct (nth_error pre i) as [b|] eqn:Eb.
    + exists b. split; [reflexivity|]. apply Hfail. eapply nth_error_In, Eb.
    + apply nth_error_None in Eb. lia.
  - rewrite rotation_nth by lia. rewrite Hrot.
    rewrite nth_error_app2 by lia. cbn [Nat.add].
    now rewrite Nat.sub_diag.
  - exact Hok.
  - lia.
Qed.

Lemma getNextAccount_first_passing_witness :
  getNextAccount 5000 (addAccount (bare "c") poolAllDown) =
    (Js.Normal (Some (registered "c")),
     withIndex 0%nat (addAccount (bare "c") poolAllDown)).
Proof.
  refine (getNextAccount_first_passing 5000 (addAccount (bare "c") poolAllDown)
            [errored DEFAULT_CONFIG (registered "a") network 1000;
             errored DEFAULT_CONFIG (registered "b") auth 1000]
            (registered "c") [] _ _ _ _).
  - vm_compute. lia.
  - reflexivity.
  - intros b [<-|[<-|[]]]; reflexivity.
  - reflexivity.
Defined.

Lemma shortest_In accts now r :
  getAccountWithShortestCooldown accts now = Some r -> In r accts.
Proof.
  destruct accts as [|a accts]; [discriminate|]. intros H.
  destruct (shortest_nonempty (a :: accts) now) as (r' & E & Hin); [discriminate|].
  congruence.
Qed.

Lemma firstOther_frame l todo excludeAccountId now p :
  accountStats (snd (firstOther l todo excludeAccountId now p)) = accountStats p /\
  currentIndex (snd (firstOther l todo excludeAccountId now p)) = currentIndex p /\
  config (snd (firstOther l todo excludeAccountId now p)) = config p.
Proof.
  revert p. induction todo as [|b todo IH]; intros p; cbn [firstOther]; [auto|].
  destruct (isOther excludeAccountId b); [|apply IH].
  pose proof (isAccountAvailable_frame b now p) as (Hs & Hi & Hc).
  destruct (isAccountAvailable b now p) as [[|] p1]; cbn [snd] in *; [auto|].
  destruct (IH p1) as (Hs' & Hi' & Hc'). repeat split; congruence.
Qed.

Lemma firstOther_result l todo excludeAccountId now p a :
  incl todo l ->
  fst (firstOther l todo excludeAccountId now p) = Some a ->
  isOther excludeAccountId a = true /\ In a l.
Proof.
  revert p. induction todo as [|b todo IH]; intros p Hincl; cbn [firstOther].
  - cbn. intros H. apply shortest_In in H. apply filter_In in H. tauto.
  - assert (Hb : In b l) by (apply Hincl; now left).
    assert (Htodo : incl todo l) by (intros x Hx; apply Hincl; now right).
    destruct (isOther excludeAccountId b) eqn:E; [|now apply IH].
    destruct (isAccountAvailable b now p) as [[|] p1]; cbn [fst].
    + intros [= <-]. auto.
    + now apply IH.
Qed.

(** X6: whatever [getNextAvailableAccount] returns is an account of the
    pool whose [id] differs from the excluded one; the call neither reads
    nor moves the round-robin cursor and leaves the statistics alone. *)
Theorem getNextAvailableAccount_never_excluded excludeAccountId now p :
  match fst (getNextAvailableAccount excludeAccountId now p) with
  | Some a => id a <> excludeAccountId /\ In a (JsMap.values (accounts p))
  | None => True
  end /\
  currentIndex (snd (getNextAvailableAccount excludeAccountId now p)) = currentIndex p /\
  accountStats (snd (getNextAvailableAccount excludeAccountId now p)) = accountStats p.
Proof.
  unfold getNextAvailableAccount.
  destruct (List.length (JsMap.values (accounts p)) <=? 1)%nat; [cbn; auto|].
  pose proof (firstOther_frame (JsMap.values (accounts p)) (JsMap.values (accounts p))
                excludeAccountId now p) as (Hs & Hi & _).
  split; [|auto].
  destruct (fst (firstOther _ _ excludeAccountId now p)) as [a|] eqn:E; [|exact I].
  apply firstOther_result in E; [|apply incl_refl].
  destruct E as [Ho Hin]. split; [|exact Hin].
  unfold isOther in Ho. apply negb_true_iff in Ho. now apply String.eqb_neq.
Qed.

(** X7: in a pool of at least two accounts, [getNextAvailableAccount] scans
    from the head of the list, not from the cursor: among the accounts in
    insertion order it returns the first one that is not the excluded
    account and passes the availability predicate (which is not evaluated
    on the excluded account), and it writes nothing except by the
    availability check of that account. *)
Theorem getNextAvailableAccount_first_other excludeAccountId now p pre a post :
  JsMap.values (accounts p) = pre ++ a :: post ->
  (1 < List.length (JsMap.values (accounts p)))%nat ->
  (forall b, In b pre ->
     id b = excludeAccountId \/ fst (isAccountAvailable b now p) = false) ->
  id a <> excludeAccountId ->
  fst (isAccountAvailable a now p) = true ->
  getNextAvailableAccount excludeAccountId now p
    = (Some a, snd (isAccountAvailable a now p)).
Proof.
  intros Hl Hlen Hpre Hid Hok. unfold getNextAvailableAccount.
  destruct (Nat.leb_spec (List.length (JsMap.values (accounts p))) 1); [lia|].
  rewrite Hl at 2. clear Hl Hlen H.
  induction pre as [|b pre IH]; cbn [app firstOther].
  - unfold isOther. apply String.eqb_neq in Hid. rewrite Hid. cbn [negb].
    destruct (isAccountAvailable a now p) as [ok p1]. cbn in Hok. now subst.
  - unfold isOther at 1. destruct (String.eqb_spec (id b) excludeAccountId) as [E|E];
      cbn [negb].
    + apply IH. intros x Hx. apply Hpre. now right.
    + destruct (Hpre b (or_introl eq_refl)) as [Hb|Hb]; [contradiction|].
      pose proof (isAccountAvailable_false _ _ _ Hb) as Hs.
      destruct (isAccountAvailable b now p) as [ok p1]. cbn in Hb, Hs. subst.
      apply IH. intros x Hx. apply Hpre. now right.
Qed.

Lemma getNextAvailableAccount_first_other_witness :
  getNextAvailableAccount "a" 1000 poolABC = (Some (registered "b"), poolABC).
Proof.
  refine (getNextAvailableAccount_first_other "a" 1000 poolABC
            [registered "a"] (registered "b") [registered "c"] _ _ _ _ _).
  - reflexivity.
  - vm_compute. lia.
  - intros b [<-|[]]. now left.
  - discriminate.
  - reflexivity.
Defined.

Lemma shortestLoop_spec now : forall rest done1 done2 b,
  (forall y, In y done1 -> waitOf b now < waitOf y now) ->
  (forall y, In y done2 -> waitOf b now <= waitOf y now) ->
  exists r l1 l2,
    shortestLoop rest now (Some b) (Some (waitOf b now)) = Some r /\
    done1 ++ b :: done2 ++ rest = l1 ++ r :: l2 /\
    (forall y, In y l1 -> waitOf r now < waitOf y now) /\
    (forall y, In y l2 -> waitOf r now <= waitOf y now).
Proof.
  induction rest as [|a rest IH]; intros done1 done2 b H1 H2; cbn [shortestLoop].
  - exists b, done1, done2. rewrite app_nil_r. auto.
  - cbn [belowWait]. destruct (Z.ltb_spec (waitOf a now) (waitOf b now)) as [Hlt|Hge].
    + destruct (IH (done1 ++ b :: done2) [] a) as (r & l1 & l2 & E & Hsplit & A & B).
      * intros y Hy. apply in_app_or in Hy as [Hy|[<-|Hy]].
        -- specialize (H1 y Hy). lia.
        -- exact Hlt.
        -- specialize (H2 y Hy). lia.
      * intros y [].
      * exists r, l1, l2. split; [exact E|]. split; [|auto].
        rewrite <- Hsplit, <- app_assoc. reflexivity.
    + destruct (IH done1 (done2 ++ [a]) b) as (r & l1 & l2 & E & Hsplit & A & B).
      * exact H1.
      * intros y Hy. apply in_app_or in Hy as [Hy|[<-|[]]]; auto.
      * exists r, l1, l2. split; [exact E|]. split; [|auto].
        rewrite <- Hsplit, <- app_assoc. reflexivity.
Qed.

(** X8: [getAccountWithShortestCooldown] returns [null] only for the empty
    list; otherwise it returns the account with the smallest wait
    [max(0, cooldownUntil - now)], and among accounts with that wait the
    first of the list. *)
Theorem shortest_cooldown_minimal accts now :
  match getAccountWithShortestCooldown accts now with
  | None => accts = []
  | Some r =>
      exists l1 l2,
        accts = l1 ++ r :: l2 /\
        (forall y, In y l1 -> waitOf r now < waitOf y now) /\
        (forall y, In y l2 -> waitOf r now <= waitOf y now)
  end.
Proof.
  unfold getAccountWithShortestCooldown.
  destruct accts as [|a rest]; [reflexivity|]. cbn [shortestLoop belowWait].
  destruct (shortestLoop_spec now rest [] [] a) as (r & l1 & l2 & -> & Hs & A & B);
    try (intros y []).
  exists l1, l2. auto.
Qed.

(** ** The cursor without removals *)

Lemma length_set_ge {V : Type} k (v : V) m :
  (List.length m <= List.length (JsMap.set k v m))%nat.
Proof.
  induction m as [|[k' v'] m IH]; cbn; [lia|].
  destruct (String.eqb k' k); cbn; lia.
Qed.

Lemma isAccountAvailable_length b now p :
  (List.length (accounts p)
   <= List.length (accounts (snd (isAccountAvailable b now p))))%nat.
Proof.
  destruct (dueRecovery b now) eqn:E.
  - rewrite (isAccountAvailable_due b now p E). cbn. apply length_set_ge.
  - now rewrite (isAccountAvailable_not_due b now p E).
Qed.

Lemma scanLoop_cursor l now remaining p :
  (currentIndex p < List.length l)%nat ->
  (currentIndex (snd (scanLoop l now remaining p)) < List.length l)%nat /\
  (List.length (accounts p)
   <= List.length (accounts (snd (scanLoop l now remaining p))))%nat.
Proof.
  revert p. induction remaining as [|r IH]; intros p Hc; cbn [scanLoop]; [auto|].
  destruct (nth_error l (currentIndex p)) as [b|] eqn:E.
  2:{ apply nth_error_None in E. lia. }
  set (p1 := withIndex _ p).
  pose proof (isAccountAvailable_frame b now p1) as (_ & Hi & _).
  pose proof (isAccountAvailable_length b now p1) as Hl.
  assert (H1 : (currentIndex p1 < List.length l)%nat)
    by (unfold p1; cbn; apply Nat.mod_upper_bound; lia).
  destruct (isAccountAvailable b now p1) as [[|] p2]; cbn [snd] in *.
  - split; [lia | exact Hl].
  - destruct (IH p2) as [A B]; [lia|]. split; [exact A|].
    etransitivity; [exact Hl | exact B].
Qed.

Lemma firstOther_length l todo excludeAccountId now p :
  (List.length (accounts p)
   <= List.length (accounts (snd (firstOther l todo excludeAccountId now p))))%nat.
Proof.
  revert p. induction todo as [|b todo IH]; intros p; cbn [firstOther]; [cbn; lia|].
  destruct (isOther excludeAccountId b); [|apply IH].
  pose proof (isAccountAvailable_length b now p) as Hl.
  destruct (isAccountAvailable b now p) as [[|] p1]; cbn [snd] in *; [exact Hl|].
  etransitivity; [exact Hl | apply IH].
Qed.

Lemma rewriteAll_length f (entries acc : list (string * ProxyAccount)) :
  (List.length acc
   <= List.length
        (fold_left (fun m '(k0, account) => JsMap.set k0 (f account) m) entries acc))%nat.
Proof.
  revert acc. induction entries as [|[k a] entries IH]; intros acc; cbn; [lia|].
  etransitivity; [|apply IH]. apply length_set_ge.
Qed.

Lemma cursorOk_grow p q :
  cursorOk p -> currentIndex q = currentIndex p ->
  (List.length (accounts p) <= List.length (accounts q))%nat -> cursorOk q.
Proof. unfold cursorOk. intros [H|H] Hi Hl; rewrite Hi; [now left | right; lia]. Qed.

Lemma recordSuccess_index accountId tokens now now' p :
  currentIndex (recordSuccess accountId tokens now now' p) = currentIndex p.
Proof.
  unfold recordSuccess.
  destruct (JsMap.get accountId (accounts p));
    match goal with
    | |- context [JsMap.get accountId (accountStats ?q)] =>
        destruct (JsMap.get accountId (accountStats q))
    end; reflexivity.
Qed.

Lemma recordError_index accountId errorType now p :
  currentIndex (recordError accountId errorType now p) = currentIndex p.
Proof.
  unfold recordError.
  destruct (JsMap.get accountId (accounts p)); [|reflexivity].
  cbn [accounts withAccounts accountStats].
  destruct (JsMap.get accountId (accountStats p)); reflexivity.
Qed.

Lemma step_cursorOk op p : cursorOk p -> notRemove op -> cursorOk (step op p).
Proof.
  intros Hok Hop. destruct op; cbn [step]; try contradiction.
  - (* addAccount *)
    apply (cursorOk_grow p); [exact Hok | reflexivity |]. cbn. apply length_set_ge.
  - (* updateAccount *)
    unfold updateAccount. destruct (JsMap.get accountId (accounts p)); [|exact Hok].
    apply (cursorOk_grow p); [exact Hok | reflexivity |]. cbn. apply length_set_ge.
  - (* getNextAccount *)
    unfold getNextAccount.
    destruct (JsMap.values (accounts p)) as [|a l] eqn:E; [exact Hok|].
    assert (Hlen : List.length (a :: l) = List.length (accounts p)).
    { rewrite <- E. unfold JsMap.values. apply length_map. }
    destruct (scanLoop_cursor (a :: l) now (List.length (a :: l)) p) as [A B].
    + destruct Hok as [H|H]; [rewrite H; cbn; lia | lia].
    + right. lia.
  - (* getNextAvailableAccount *)
    unfold getNextAvailableAccount.
    destruct (List.length (JsMap.values (accounts p)) <=? 1)%nat; [exact Hok|].
    apply (cursorOk_grow p); [exact Hok | | apply firstOther_length].
    apply firstOther_frame.
  - (* recordSuccess *)
    apply (cursorOk_grow p); [exact Hok | apply recordSuccess_index |].
    rewrite recordSuccess_accounts.
    destruct (JsMap.get accountId (accounts p)); [apply length_set_ge | lia].
  - (* recordError *)
    apply (cursorOk_grow p); [exact Hok | apply recordError_index |].
    rewrite recordError_accounts.
    destruct (JsMap.get accountId (accounts p)); [apply length_set_ge | lia].
  - (* markNeedsRefresh *)
    unfold markNeedsRefresh. destruct (JsMap.get accountId (accounts p)); [|exact Hok].
    apply (cursorOk_grow p); [exact Hok | reflexivity |]. cbn. apply length_set_ge.
  - (* reset *)
    now left.
  - (* clear *)
    now left.
  - (* getAccountDiagnostics *)
    unfold getAccountDiagnostics.
    destruct (JsMap.get accountId (accounts p)) as [b|]; [|exact Hok].
    pose proof (isAccountAvailable_frame b now p) as (_ & Hi & _).
    pose proof (isAccountAvailable_length b now p) as Hl.
    destruct (isAccountAvailable b now p) as [ok p1]. cbn [snd] in *.
    now apply (cursorOk_grow p).
  - (* resetAccountState *)
    unfold resetAccountState. destruct (JsMap.get accountId (accounts p)); [|exact Hok].
    apply (cursorOk_grow p); [exact Hok | reflexivity |]. cbn. apply length_set_ge.
  - (* resetAllAccountStates *)
    apply (cursorOk_grow p); [exact Hok | reflexivity |]. cbn. apply rewriteAll_length.
Qed.

Lemma run_cursorOk ops : forall p,
  cursorOk p -> Forall notRemove ops -> cursorOk (run ops p).
Proof.
  induction ops as [|op ops IH]; intros p Hok Hops; [exact Hok|].
  inversion Hops; subst. apply (IH (step op p)); [now apply step_cursorOk | assumption].
Qed.

(** X9: as long as no account is removed, [getNextAccount] never raises:
    in a pool built from [new AccountPool(...)] by any calls other than
    [removeAccount] the cursor stays inside the list (or at 0), so the
    selection always returns an account or [null]. *)
Theorem getNextAccount_safe_without_remove c ops now :
  Forall notRemove ops ->
  fst (getNextAccount now (run ops (newPool c))) <> Js.TypeError.
Proof.
  intros Hops.
  assert (Hok : cursorOk (run ops (newPool c)))
    by (apply run_cursorOk; [now left | exact Hops]).
  set (p := run ops (newPool c)) in *.
  destruct (accounts p) as [|e m] eqn:E.
  - unfold getNextAccount. rewrite E. discriminate.
  - destruct (scanLoop_in_range (JsMap.values (accounts p)) now
                (List.length (JsMap.values (accounts p))) p) as (a & Ha & _).
    + unfold JsMap.values. rewrite length_map.
      destruct Hok as [H|H]; [rewrite H, E; cbn; lia | exact H].
    + unfold getNextAccount. rewrite E in *. cbn [JsMap.values map] in *.
      rewrite Ha. discriminate.
Qed.

Lemma getNextAccount_safe_without_remove_witness :
  fst (getNextAccount 9000
         (run [OpAdd (bare "a"); OpAdd (bare "b"); OpNext 1000; OpError "a" auth 2000;
               OpNext 3000; OpResetAll; OpNext 4000]
              (newPool noOverrides))) <> Js.TypeError.
Proof.
  apply (getNextAccount_safe_without_remove noOverrides).
  repeat constructor.
Defined.

(** X10: a [getNextAccount] that finds the cursor past the end of a
    non-empty list raises, but it has already advanced the cursor modulo
    the length: the pool is otherwise unchanged and the next call returns
    an account of the pool. *)
Theorem getNextAccount_raise_resets_cursor now now' p :
  accounts p <> [] ->
  (List.length (accounts p) <= currentIndex p)%nat ->
  getNextAccount now p =
    (Js.TypeError,
     withIndex ((currentIndex p + 1) mod List.length (accounts p))%nat p) /\
  exists a,
    fst (getNextAccount now' (snd (getNextAccount now p))) = Js.Normal (Some a) /\
    In a (JsMap.values (accounts p)).
Proof.
  intros Hne Hc.
  assert (Hlen : List.length (JsMap.values (accounts p)) = List.length (accounts p))
    by (unfold JsMap.values; apply length_map).
  assert (E : getNextAccount now p =
    (Js.TypeError,
     withIndex ((currentIndex p + 1) mod List.length (accounts p))%nat p)).
  { unfold getNextAccount.
    destruct (JsMap.values (accounts p)) as [|a l] eqn:El.
    { destruct (accounts p); [congruence | discriminate]. }
    rewrite <- El in *. rewrite Hlen.
    destruct (List.length (accounts p)) as [|n] eqn:En.
    { destruct (accounts p); [congruence | discriminate]. }
    cbn [scanLoop].
    destruct (nth_error (JsMap.values (accounts p)) (currentIndex p)) eqn:Enth.
    - exfalso. assert (nth_error (JsMap.values (accounts p)) (currentIndex p) <> None)
        by congruence.
      apply nth_error_Some in H. lia.
    - now rewrite Hlen. }
  split; [exact E|]. rewrite E. cbn [snd].
  set (p1 := withIndex _ p).
  assert (Hn : (0 < List.length (accounts p))%nat).
  { destruct (accounts p); [congruence | cbn; lia]. }
  unfold getNextAccount. change (accounts p1) with (accounts p).
  destruct (JsMap.values (accounts p)) as [|a l] eqn:El; [cbn in Hlen; lia|].
  rewrite <- El in *. apply scanLoop_in_range.
  unfold p1. cbn. rewrite Hlen. apply Nat.mod_upper_bound. lia.
Qed.

Lemma getNextAccount_raise_resets_cursor_witness :
  getNextAccount 3000 poolAfterRemove =
    (Js.TypeError, withIndex 1%nat poolAfterRemove) /\
  exists a,
    fst (getNextAccount 4000 (snd (getNextAccount 3000 poolAfterRemove)))
      = Js.Normal (Some a) /\
    In a (JsMap.values (accounts poolAfterRemove)).
Proof.
  refine (getNextAccount_raise_resets_cursor 3000 4000 poolAfterRemove _ _).
  - discriminate.
  - vm_compute. lia.
Defined.

(** X11: when the account under the cursor has reached its auto-recovery
    deadline, [getNextAccount] returns the record of its snapshot, which
    still carries the deadline, while the pool now stores the recovered
    record under that id: the returned object is not the stored one. *)
Theorem getNextAccount_returns_snapshot now p a :
  nth_error (JsMap.values (accounts p)) (currentIndex p) = Some a ->
  dueRecovery a now = true ->
  fst (getNextAccount now p) = Js.Normal (Some a) /\
  getAccount (id a) (snd (getNextAccount now p)) = Some (recovered a) /\
  recovered a <> a.
Proof.
  intros Hnth Hdue.
  assert (Hne : recovered a <> a).
  { intros E. apply (f_equal autoRecoverAt) in E. cbn in E.
    unfold dueRecovery in Hdue. rewrite <- E in Hdue. discriminate. }
  assert (E : getNextAccount now p =
    (Js.Normal (Some a),
     withAccounts (JsMap.set (id a) (recovered a) (accounts p))
       (withIndex ((currentIndex p + 1)
                     mod List.length (JsMap.values (accounts p)))%nat p))).
  { unfold getNextAccount.
    destruct (JsMap.values (accounts p)) as [|a0 l] eqn:El.
    { destruct (currentIndex p); discriminate. }
    rewrite <- El in *.
    assert (Hlen : List.length (JsMap.values (accounts p)) = S (List.length l))
      by now rewrite El.
    rewrite Hlen at 1. cbn [scanLoop]. rewrite Hnth.
    now rewrite (isAccountAvailable_due a now _ Hdue). }
  rewrite E. cbn [fst snd].
  split; [reflexivity|]. split; [|exact Hne].
  unfold getAccount. cbn. apply get_set_same.
Qed.

Lemma getNextAccount_returns_snapshot_witness :
  fst (getNextAccount 301000 poolAuthError)
    = Js.Normal (Some (errored DEFAULT_CONFIG (registered "a") auth 1000)) /\
  getAccount "a" (snd (getNextAccount 301000 poolAuthError))
    = Some (recovered (errored DEFAULT_CONFIG (registered "a") auth 1000)) /\
  recovered (errored DEFAULT_CONFIG (registered "a") auth 1000)
    <> errored DEFAULT_CONFIG (registered "a") auth 1000.
Proof.
  refine (getNextAccount_returns_snapshot 301000 poolAuthError
            (errored DEFAULT_CONFIG (registered "a") auth 1000) _ _);
    reflexivity.
Defined.

(** ** The registry: add, remove, update *)

Lemma set_set_same {V : Type} k (v : V) m :
  JsMap.set k v (JsMap.set k v m) = JsMap.set k v m.
Proof.
  induction m as [|[k' v'] m IH]; cbn.
  - now rewrite String.eqb_refl.
  - destruct (String.eqb k' k) eqn:E; cbn.
    + now rewrite String.eqb_refl.
    + now rewrite E, IH.
Qed.

Lemma set_get_same {V : Type} k (v : V) m :
  JsMap.get k m = Some v -> JsMap.set k v m = m.
Proof.
  induction m as [|[k' v'] m IH]; cbn; [discriminate|].
  destruct (String.eqb k' k) eqn:E.
  - apply String.eqb_eq in E. now intros [= ->]; subst.
  - intros H. now rewrite IH.
Qed.

Lemma delete_absent {V : Type} k (m : list (string * V)) :
  JsMap.get k m = None -> JsMap.delete k m = m.
Proof.
  induction m as [|[k' v'] m IH]; cbn; [reflexivity|].
  destruct (String.eqb k' k); [discriminate|]. intros H. now rewrite IH.
Qed.

Lemma delete_set_absent {V : Type} k (v : V) m :
  JsMap.get k m = None -> JsMap.delete k (JsMap.set k v m) = m.
Proof.
  induction m as [|[k' v'] m IH]; cbn.
  - now rewrite String.eqb_refl.
  - destruct (String.eqb k' k) eqn:E; [discriminate|]. cbn. rewrite E.
    intros H. now rewrite IH.
Qed.

Lemma length_keys {V : Type} (m : list (string * V)) :
  List.length (JsMap.keys m) = List.length m.
Proof. apply length_map. Qed.

(** X12: [addAccount] files the account under its [id] with the rotation
    counters reset (available, no errors, no requests, never used) and
    fresh statistics, but it keeps the [cooldownUntil], [autoRecoverAt] and
    [expiresAt] the caller passed; the other records and the cursor are
    untouched, the pool grows by one only when the id is new, and adding
    the same account twice is the same as adding it once. *)
Theorem addAccount_registers account p :
  getAccount (id account) (addAccount account p)
    = Some (mkAccount (id account) (email account) (idp account)
              (Some true) (Some 0) (Some 0) (Some 0)
              (cooldownUntil account) (autoRecoverAt account) (expiresAt account)) /\
  JsMap.get (id account) (accountStats (addAccount account p)) = Some zeroStats /\
  (forall k, k <> id account ->
     getAccount k (addAccount account p) = getAccount k p /\
     JsMap.get k (accountStats (addAccount account p)) = JsMap.get k (accountStats p)) /\
  size (addAccount account p)
    = match getAccount (id account) p with
      | Some _ => size p
      | None => S (size p)
      end /\
  currentIndex (addAccount account p) = currentIndex p /\
  addAccount account (addAccount account p) = addAccount account p.
Proof.
  unfold getAccount, addAccount, size, JsMap.size. cbn.
  rewrite !get_set_same. split; [reflexivity|]. split; [reflexivity|]. split.
  { intros k Hk. now rewrite !get_set_other. }
  split.
  { rewrite <- !length_keys.
    destruct (JsMap.get (id account) (accounts p)) as [a|] eqn:E.
    - rewrite keys_set_present; [reflexivity | eapply get_keys, E].
    - rewrite keys_set_absent by now apply get_None_keys.
      rewrite length_app. cbn. lia. }
  split; [reflexivity|].
  unfold withStats, withAccounts. cbn. now rewrite !set_set_same.
Qed.

(** X13: [removeAccount] makes the id unknown and touches no other record;
    it does not move the cursor; on an unknown id it changes nothing; and
    removing an account right after adding it under a new id gives back the
    pool as it was. *)
Theorem removeAccount_forgets accountId p :
  NoDup (JsMap.keys (accounts p)) ->
  getAccount accountId (removeAccount accountId p) = None /\
  (forall k, k <> accountId ->
     getAccount k (removeAccount accountId p) = getAccount k p) /\
  currentIndex (removeAccount accountId p) = currentIndex p /\
  (getAccount accountId p = None ->
   JsMap.get accountId (accountStats p) = None ->
   removeAccount accountId p = p /\
   forall account, id account = accountId ->
     removeAccount accountId (addAccount account p) = p).
Proof.
  intros Hnd. unfold getAccount, removeAccount. cbn.
  split; [now apply get_delete_same|]. split.
  { intros k Hk. now apply get_delete_other. }
  split; [reflexivity|].
  intros Ha Hs. split.
  - unfold withStats, withAccounts. cbn.
    rewrite !delete_absent by assumption. now destruct p.
  - intros account <-. unfold addAccount, withStats, withAccounts. cbn.
    rewrite !delete_set_absent by assumption. now destruct p.
Qed.

Lemma removeAccount_forgets_witness :
  getAccount "b" (removeAccount "b" poolABC) = None /\
  (forall k, k <> "b"%string ->
     getAccount k (removeAccount "b" poolABC) = getAccount k poolABC) /\
  currentIndex (removeAccount "b" poolABC) = currentIndex poolABC /\
  (getAccount "b" poolABC = None ->
   JsMap.get "b"%string (accountStats poolABC) = None ->
   removeAccount "b" poolABC = poolABC /\
   forall account, id account = "b"%string ->
     removeAccount "b" (addAccount account poolABC) = poolABC).
Proof.
  apply (removeAccount_forgets "b" poolABC).
  repeat constructor; cbn; intuition discriminate.
Defined.

Lemma merge_noUpdates account : merge account noUpdates = account.
Proof. now destruct account. Qed.

(** X14: [updateAccount] on a registered id stores the record merged with
    the updates, keeps every id at its place in the rotation order and
    touches neither the other records, the statistics nor the cursor; with
    no field to update it changes nothing. *)
Theorem updateAccount_merges accountId updates p account :
  getAccount accountId p = Some account ->
  getAccount accountId (updateAccount accountId updates p)
    = Some (merge account updates) /\
  (forall k, k <> accountId ->
     getAccount k (updateAccount accountId updates p) = getAccount k p) /\
  JsMap.keys (accounts (updateAccount accountId updates p)) = JsMap.keys (accounts p) /\
  accountStats (updateAccount accountId updates p) = accountStats p /\
  currentIndex (updateAccount accountId updates p) = currentIndex p /\
  updateAccount accountId noUpdates p = p.
Proof.
  unfold getAccount, updateAccount. intros H. rewrite H. cbn.
  rewrite get_set_same. split; [reflexivity|]. split.
  { intros k Hk. now apply get_set_other. }
  split; [apply keys_set_present; eapply get_keys, H|].
  split; [reflexivity|]. split; [reflexivity|].
  rewrite merge_noUpdates, (set_get_same _ _ _ H). now destruct p.
Qed.

Lemma updateAccount_merges_witness :
  getAccount "b" (updateAccount "b"
                    (mkUpdates None None None None None None None None None
                       (Some (Some 5000000))) poolABC)
    = Some (withExpiresAt (Some 5000000) (registered "b")).
Proof.
  exact (proj1 (updateAccount_merges "b"
                  (mkUpdates None None None None None None None None None
                     (Some (Some 5000000))) poolABC (registered "b") eq_refl)).
Defined.

(** X15: every report or administrative call on an id the pool does not
    know leaves the pool exactly as it is, and the calls that return a
    value say so ([false], [null]). *)
Theorem unknown_id_changes_nothing accountId p :
  getAccount accountId p = None ->
  (forall errorType now, recordError accountId errorType now p = p) /\
  (forall now, markNeedsRefresh accountId now p = p) /\
  (forall updates, updateAccount accountId updates p = p) /\
  resetAccountState accountId p = (false, p) /\
  (forall now, getAccountDiagnostics accountId now p = (None, p)) /\
  (JsMap.get accountId (accountStats p) = None ->
   forall tokens now now', recordSuccess accountId tokens now now' p = p).
Proof.
  unfold getAccount. intros H.
  unfold recordError, markNeedsRefresh, updateAccount, resetAccountState,
    getAccountDiagnostics, recordSuccess.
  rewrite H. repeat split; try reflexivity.
  intros Hs tokens now now'. now rewrite Hs.
Qed.

Lemma unknown_id_changes_nothing_witness :
  (forall errorType now, recordError "z" errorType now poolABC = poolABC) /\
  (forall now, markNeedsRefresh "z" now poolABC = poolABC) /\
  (forall updates, updateAccount "z" updates poolABC = poolABC) /\
  resetAccountState "z" poolABC = (false, poolABC) /\
  (forall now, getAccountDiagnostics "z" now poolABC = (None, poolABC)) /\
  (JsMap.get "z"%string (accountStats poolABC) = None ->
   forall tokens now now', recordSuccess "z" tokens now now' poolABC = poolABC).
Proof.
  apply (unknown_id_changes_nothing "z" poolABC). reflexivity.
Defined.

(** ** Statistics follow the accounts *)

Lemma keys_set_congr {V W : Type} k (v : V) (w : W) m m' :
  JsMap.keys m = JsMap.keys m' ->
  JsMap.keys (JsMap.set k v m) = JsMap.keys (JsMap.set k w m').
Proof.
  revert m'. induction m as [|[k1 v1] m IH]; intros [|[k2 w2] m']; cbn;
    try discriminate; [reflexivity|].
  intros [= -> H]. destruct (String.eqb k2 k); cbn; f_equal;
    [exact H | exact (IH m' H)].
Qed.

Lemma keys_delete_congr {V W : Type} k (m : list (string * V)) (m' : list (string * W)) :
  JsMap.keys m = JsMap.keys m' ->
  JsMap.keys (JsMap.delete k m) = JsMap.keys (JsMap.delete k m').
Proof.
  revert m'. induction m as [|[k1 v1] m IH]; intros [|[k2 w2] m']; cbn;
    try discriminate; [reflexivity|].
  intros [= -> H]. destruct (String.eqb k2 k); cbn;
    [exact H | f_equal; exact (IH m' H)].
Qed.

Lemma isAccountAvailable_keys b now p :
  In (id b) (JsMap.keys (accounts p)) ->
  JsMap.keys (accounts (snd (isAccountAvailable b now p))) = JsMap.keys (accounts p).
Proof.
  intros Hin. destruct (dueRecovery b now) eqn:E.
  - rewrite (isAccountAvailable_due b now p E). cbn. now apply keys_set_present.
  - now rewrite (isAccountAvailable_not_due b now p E).
Qed.

Lemma scanLoop_keys l now remaining p :
  (forall b, In b l -> In (id b) (JsMap.keys (accounts p))) ->
  JsMap.keys (accounts (snd (scanLoop l now remaining p))) = JsMap.keys (accounts p).
Proof.
  revert p. induction remaining as [|r IH]; intros p Hl; cbn [scanLoop]; [reflexivity|].
  destruct (nth_error l (currentIndex p)) as [b|] eqn:E; [|reflexivity].
  set (p1 := withIndex _ p).
  pose proof (isAccountAvailable_keys b now p1 (Hl b (nth_error_In _ _ E))) as Hk.
  destruct (isAccountAvailable b now p1) as [[|] p2]; cbn [snd] in *; [exact Hk|].
  rewrite IH; [exact Hk|]. intros x Hx. rewrite Hk. now apply Hl.
Qed.

Lemma firstOther_keys l todo excludeAccountId now p :
  (forall b, In b todo -> In (id b) (JsMap.keys (accounts p))) ->
  JsMap.keys (accounts (snd (firstOther l todo excludeAccountId now p)))
    = JsMap.keys (accounts p).
Proof.
  revert p. induction todo as [|b todo IH]; intros p Hl; cbn [firstOther];
    [reflexivity|].
  assert (Hrest : forall x, In x todo -> In (id x) (JsMap.keys (accounts p)))
    by (intros x Hx; apply Hl; now right).
  destruct (isOther excludeAccountId b); [|now apply IH].
  pose proof (isAccountAvailable_keys b now p (Hl b (or_introl eq_refl))) as Hk.
  destruct (isAccountAvailable b now p) as [[|] p1]; cbn [snd] in *; [exact Hk|].
  rewrite IH; [exact Hk|]. intros x Hx. rewrite Hk. now apply Hrest.
Qed.

Lemma rewriteAll_keys f (entries acc : list (string * ProxyAccount)) :
  (forall e, In e entries -> In (fst e) (JsMap.keys acc)) ->
  JsMap.keys (fold_left (fun m '(k0, account) => JsMap.set k0 (f account) m) entries acc)
    = JsMap.keys acc.
Proof.
  revert acc. induction entries as [|[k a] entries IH]; intros acc H;
    cbn [fold_left]; [reflexivity|].
  assert (Hk : JsMap.keys (JsMap.set k (f a) acc) = JsMap.keys acc)
    by (apply keys_set_present; exact (H (k, a) (or_introl eq_refl))).
  rewrite IH; [exact Hk|]. intros e He. rewrite Hk. apply H. now right.
Qed.

Lemma scanLoop_frame_stats l now remaining p :
  accountStats (snd (scanLoop l now remaining p)) = accountStats p.
Proof.
  revert p. induction remaining as [|r IH]; intros p; cbn [scanLoop]; [reflexivity|].
  destruct (nth_error l (currentIndex p)) as [b|]; [|reflexivity].
  set (p1 := withIndex _ p).
  pose proof (isAccountAvailable_frame b now p1) as (Hs & _).
  destruct (isAccountAvailable b now p1) as [[|] p2]; cbn [snd] in *; [exact Hs|].
  now rewrite IH.
Qed.

Lemma get_In_snd {V : Type} k (v : V) m :
  JsMap.get k m = Some v -> In v (JsMap.values m).
Proof.
  intros H. apply get_In in H. unfold JsMap.values.
  change v with (snd (k, v)). now apply in_map.
Qed.

Lemma wf_ids_known p b :
  wf p -> In b (JsMap.values (accounts p)) -> In (id b) (JsMap.keys (accounts p)).
Proof.
  intros [_ Hk] Hb. unfold JsMap.values in Hb. apply in_map_iff in Hb as (e & <- & He).
  unfold keyed in Hk. rewrite Forall_forall in Hk. rewrite (Hk e He).
  unfold JsMap.keys. now apply in_map.
Qed.

Lemma recordSuccess_stats_keys accountId tokens now now' p :
  JsMap.keys (accountStats (recordSuccess accountId tokens now now' p))
    = JsMap.keys (accountStats p).
Proof.
  unfold recordSuccess.
  destruct (JsMap.get accountId (accounts p)); cbn [accountStats withAccounts];
    (destruct (JsMap.get accountId (accountStats p)) eqn:E; cbn; [|reflexivity];
     apply keys_set_present; eapply get_keys, E).
Qed.

Lemma recordError_stats_keys accountId errorType now p :
  JsMap.keys (accountStats (recordError accountId errorType now p))
    = JsMap.keys (accountStats p).
Proof.
  unfold recordError.
  destruct (JsMap.get accountId (accounts p)); [|reflexivity].
  cbn [accountStats withAccounts].
  destruct (JsMap.get accountId (accountStats p)) eqn:E; cbn; [|reflexivity].
  apply keys_set_present. eapply get_keys, E.
Qed.

Lemma keys_set_known p k v :
  JsMap.get k (accounts p) <> None ->
  JsMap.keys (JsMap.set k v (accounts p)) = JsMap.keys (accounts p).
Proof.
  intros H. apply keys_set_present.
  destruct (JsMap.get k (accounts p)) eqn:E; [eapply get_keys, E | congruence].
Qed.

Lemma step_aligned op p : wf p -> aligned p -> aligned (step op p).
Proof.
  unfold aligned. intros Hwf Hal. destruct op; cbn [step].
  - (* addAccount *)
    unfold addAccount. cbn. now apply keys_set_congr.
  - (* removeAccount *)
    unfold removeAccount. cbn. now apply keys_delete_congr.
  - (* updateAccount *)
    unfold updateAccount.
    destruct (JsMap.get accountId (accounts p)) eqn:E; [|exact Hal].
    cbn [accounts accountStats withAccounts snd]. rewrite keys_set_known; [exact Hal | congruence].
  - (* getNextAccount *)
    unfold getNextAccount.
    destruct (JsMap.values (accounts p)) as [|a l] eqn:E; [exact Hal|].
    rewrite <- E.
    pose proof (scanLoop_frame_stats (JsMap.values (accounts p)) now
                  (List.length (JsMap.values (accounts p))) p) as Hs.
    rewrite Hs, scanLoop_keys; [exact Hal|].
    intros b Hb. now apply wf_ids_known.
  - (* getNextAvailableAccount *)
    unfold getNextAvailableAccount.
    destruct (List.length (JsMap.values (accounts p)) <=? 1)%nat; [exact Hal|].
    destruct (firstOther_frame (JsMap.values (accounts p)) (JsMap.values (accounts p))
                excludeAccountId now p) as (Hs & _).
    rewrite Hs, firstOther_keys; [exact Hal|].
    intros b Hb. now apply wf_ids_known.
  - (* recordSuccess *)
    rewrite recordSuccess_stats_keys, recordSuccess_accounts.
    destruct (JsMap.get accountId (accounts p)) eqn:E; [|exact Hal].
    rewrite keys_set_known; [exact Hal | congruence].
  - (* recordError *)
    rewrite recordError_stats_keys, recordError_accounts.
    destruct (JsMap.get accountId (accounts p)) eqn:E; [|exact Hal].
    rewrite keys_set_known; [exact Hal | congruence].
  - (* markNeedsRefresh *)
    unfold markNeedsRefresh.
    destruct (JsMap.get accountId (accounts p)) eqn:E; [|exact Hal].
    cbn [accounts accountStats withAccounts snd]. rewrite keys_set_known; [exact Hal | congruence].
  - (* reset *)
    unfold reset, rewriteAll. cbn [accounts accountStats withAccounts withIndex]. rewrite rewriteAll_keys; [exact Hal|].
    intros e He. unfold JsMap.keys. now apply in_map.
  - (* clear *)
    reflexivity.
  - (* getAccountDiagnostics *)
    unfold getAccountDiagnostics.
    destruct (JsMap.get accountId (accounts p)) as [b|] eqn:E; [|exact Hal].
    pose proof (isAccountAvailable_frame b now p) as (Hs & _).
    pose proof (isAccountAvailable_keys b now p) as Hk.
    destruct (isAccountAvailable b now p) as [ok p1]. cbn [snd] in *.
    rewrite Hs, Hk; [exact Hal|].
    apply wf_ids_known; [exact Hwf | eapply get_In_snd, E].
  - (* resetAccountState *)
    unfold resetAccountState.
    destruct (JsMap.get accountId (accounts p)) eqn:E; [|exact Hal].
    cbn [accounts accountStats withAccounts snd]. rewrite keys_set_known; [exact Hal | congruence].
  - (* resetAllAccountStates *)
    unfold resetAllAccountStates, rewriteAll.
    cbn [accounts accountStats withAccounts snd]. rewrite rewriteAll_keys; [exact Hal|].
    intros e He. unfold JsMap.keys. now apply in_map.
Qed.

(** X16: in every pool built from [new AccountPool(...)] by calls that do
    not rename a record, the statistics map holds exactly the ids of the
    accounts map, in the same order: no account is without statistics and
    no statistics outlive their account. *)
Theorem reachable_aligned p : reachable p -> aligned p.
Proof.
  intros H. enough (wf p /\ aligned p) by tauto.
  induction H as [c|op p _ [IHw IHa] Hop].
  - split; [split; constructor | reflexivity].
  - split; [now apply step_wf | now apply step_aligned].
Qed.

Lemma reachable_aligned_witness : aligned poolAllDown.
Proof.
  apply reachable_aligned.
  exact (reachable_step (OpError "b" auth 1000) _
           (reachable_step (OpError "a" network 1000) _
              (reachable_step (OpAdd (bare "b")) _
                 (reachable_step (OpAdd (bare "a")) _
                    (reachable_new noOverrides) I) I) I) I).
Defined.

(** ** Backoff windows *)


Lemma andAlso_positive z f : 0 < z -> Js.andAlso (Some z) f = f z.
Proof.
  intros H. cbn. destruct (Z.eqb_spec z 0); [lia | reflexivity].
Qed.

(** X17: [markNeedsRefresh] at [now] makes the predicate turn the account
    down until [now + 30000], whatever [autoRecoverMs] the pool was built
    with, and lets it auto-recover from then on; the error count and the
    cooldown are left as they are. *)
Theorem markNeedsRefresh_window p accountId account now :
  JsMap.get accountId (accounts p) = Some account ->
  id account = accountId ->
  0 < now ->
  let p' := markNeedsRefresh accountId now p in
  exists account',
    JsMap.get accountId (accounts p') = Some account' /\
    isAvailable account' = Some false /\
    autoRecoverAt account' = Some (now + 30000) /\
    errorCount account' = errorCount account /\
    cooldownUntil account' = cooldownUntil account /\
    (forall t, t < now + 30000 -> isAccountAvailable account' t p' = (false, p')) /\
    (forall t, now + 30000 <= t ->
       fst (isAccountAvailable account' t p') = true /\
       getAccount accountId (snd (isAccountAvailable account' t p'))
         = Some (recovered account')).
Proof.
  intros Hget Hid Hnow p'. unfold p', markNeedsRefresh. rewrite Hget.
  cbn [accounts withAccounts]. rewrite get_set_same.
  eexists. split; [reflexivity|]. cbn [isAvailable autoRecoverAt errorCount cooldownUntil].
  repeat (split; [reflexivity|]). split.
  - intros t Ht. unfold isAccountAvailable. cbn [autoRecoverAt].
    rewrite !andAlso_positive by lia.
    destruct (Z.leb_spec (now + 30000) t); [lia|].
    destruct (Z.gtb_spec (now + 30000) t); [reflexivity | lia].
  - intros t Ht. rewrite isAccountAvailable_due.
    + cbn [fst snd]. split; [reflexivity|]. unfold getAccount. cbn.
      rewrite Hid. apply get_set_same.
    + unfold dueRecovery. cbn [autoRecoverAt]. rewrite andAlso_positive by lia.
      now apply Z.leb_le.
Qed.

Lemma markNeedsRefresh_window_witness :
  exists account',
    JsMap.get "a"%string (accounts (markNeedsRefresh "a" 1000 poolABC)) = Some account' /\
    isAvailable account' = Some false /\
    autoRecoverAt account' = Some 31000.
Proof.
  destruct (markNeedsRefresh_window poolABC "a" (registered "a") 1000
              eq_refl eq_refl ltac:(lia))
    as (account' & H1 & H2 & H3 & _).
  exists account'. auto.
Defined.



(** X19: [resetAccountState] on a registered id returns [true] and stores
    the record with the error count at 0, no cooldown and no auto-recovery
    deadline, marked available; from then on the predicate accepts the
    account at every time at which its token has not expired beyond the
    grace period (for a positive [maxErrorCount]), whatever blocked it
    before. *)
Theorem resetAccountState_unblocks p accountId account :
  JsMap.get accountId (accounts p) = Some account ->
  0 < maxErrorCount (config p) ->
  fst (resetAccountState accountId p) = true /\
  getAccount accountId (snd (resetAccountState accountId p))
    = Some (fullReset account) /\
  (forall t,
     Js.andAlso (expiresAt account)
       (fun e => e + expiryGracePeriodMs (config p) <? t) = false ->
     isAccountAvailable (fullReset account) t (snd (resetAccountState accountId p))
       = (true, snd (resetAccountState accountId p))).
Proof.
  intros Hget Hmax. unfold resetAccountState, getAccount. rewrite Hget.
  cbn [fst snd accounts withAccounts]. rewrite get_set_same.
  split; [reflexivity|]. split; [reflexivity|].
  intros t Hexp. unfold isAccountAvailable. cbn.
  destruct (Z.geb_spec 0 (maxErrorCount (config p))); [lia|].
  cbn in Hexp. now rewrite Hexp.
Qed.

Lemma resetAccountState_unblocks_witness :
  fst (resetAccountState "a" poolThreeErrors) = true /\
  getAccount "a" (snd (resetAccountState "a" poolThreeErrors))
    = Some (mkAccount "a" None None (Some true) (Some 0) (Some 0) (Some 3000)
              None None None) /\
  (forall t,
     Js.andAlso None (fun e => e + 60000 <? t) = false ->
     isAccountAvailable
       (mkAccount "a" None None (Some true) (Some 0) (Some 0) (Some 3000)
          None None None) t (snd (resetAccountState "a" poolThreeErrors))
       = (true, snd (resetAccountState "a" poolThreeErrors))).
Proof.
  refine (resetAccountState_unblocks poolThreeErrors "a"
            (mkAccount "a" None None (Some true) (Some 3) (Some 0) (Some 3000)
               (Some 63000) None None) eq_refl _).
  vm_compute. reflexivity.
Defined.

(** ** Resets *)

Lemma set_app_absent {V : Type} k (v a : V) pre rest :
  ~ In k (JsMap.keys pre) ->
  JsMap.set k v (pre ++ (k, a) :: rest) = pre ++ (k, v) :: rest.
Proof.
  induction pre as [|[k' v'] pre IH]; cbn; intros H.
  - now rewrite String.eqb_refl.
  - destruct (String.eqb_spec k' k) as [->|Hne]; [exfalso; auto|].
    rewrite IH; auto.
Qed.

Lemma rewriteAll_map_gen (f : ProxyAccount -> ProxyAccount) : forall entries pre,
  NoDup (JsMap.keys (pre ++ entries)) ->
  fold_left (fun m '(k0, account) => JsMap.set k0 (f account) m) entries (pre ++ entries)
    = pre ++ map (fun e => (fst e, f (snd e))) entries.
Proof.
  induction entries as [|[k a] entries IH]; intros pre Hnd; cbn [fold_left map];
    [reflexivity|].
  assert (Hk : ~ In k (JsMap.keys pre)).
  { unfold JsMap.keys in *. rewrite map_app in Hnd. cbn in Hnd.
    apply NoDup_remove_2 in Hnd. intros H. apply Hnd. apply in_or_app. now left. }
  rewrite set_app_absent by exact Hk.
  change (pre ++ (k, f a) :: entries) with (pre ++ [(k, f a)] ++ entries).
  rewrite app_assoc, IH.
  - now rewrite <- app_assoc.
  - unfold JsMap.keys in *. rewrite <- app_assoc. rewrite map_app in *. exact Hnd.
Qed.

Lemma rewriteAll_map f m :
  NoDup (JsMap.keys m) ->
  rewriteAll f m = map (fun e => (fst e, f (snd e))) m.
Proof.
  intros H. unfold rewriteAll. exact (rewriteAll_map_gen f m [] H).
Qed.

Lemma get_map (f : ProxyAccount -> ProxyAccount) (m : list (string * ProxyAccount)) k :
  JsMap.get k (map (fun e => (fst e, f (snd e))) m) = option_map f (JsMap.get k m).
Proof.
  induction m as [|[k' a] m IH]; cbn; [reflexivity|].
  destruct (String.eqb k' k); [reflexivity | exact IH].
Qed.

Lemma resets_rewrite_all_helper p :
  NoDup (JsMap.keys (accounts p)) ->
  accounts (reset p) = map (fun e => (fst e, softReset (snd e))) (accounts p) /\
  accounts (snd (resetAllAccountStates p))
    = map (fun e => (fst e, fullReset (snd e))) (accounts p).
Proof.
  intros H. unfold reset, resetAllAccountStates. cbn.
  now rewrite !rewriteAll_map by exact H.
Qed.

(** X20: [reset] and [resetAllAccountStates] rewrite every record in place,
    keeping ids, order and statistics.  [reset] clears the error count and
    the cooldown, marks the account available and puts the cursor back to
    0, but keeps a pending [autoRecoverAt]; [resetAllAccountStates] clears
    that deadline too, leaves the cursor where it is and returns the number
    of accounts. *)
Theorem resets_rewrite_every_record p :
  NoDup (JsMap.keys (accounts p)) ->
  accounts (reset p) = map (fun e => (fst e, softReset (snd e))) (accounts p) /\
  currentIndex (reset p) = 0%nat /\
  accountStats (reset p) = accountStats p /\
  resetAllAccountStates p =
    (Z.of_nat (size p),
     withAccounts (map (fun e => (fst e, fullReset (snd e))) (accounts p)) p).
Proof.
  intros H. unfold reset, resetAllAccountStates, size, JsMap.size. cbn.
  rewrite !rewriteAll_map by exact H. auto.
Qed.

Lemma resets_rewrite_every_record_witness :
  accounts (reset poolAllDown)
    = map (fun e => (fst e, softReset (snd e))) (accounts poolAllDown) /\
  currentIndex (reset poolAllDown) = 0%nat /\
  accountStats (reset poolAllDown) = accountStats poolAllDown /\
  resetAllAccountStates poolAllDown =
    (Z.of_nat (size poolAllDown),
     withAccounts (map (fun e => (fst e, fullReset (snd e))) (accounts poolAllDown))
       poolAllDown).
Proof.
  apply (resets_rewrite_every_record poolAllDown).
  repeat constructor; cbn; intuition discriminate.
Defined.

(** X21: an account waiting for auto-recovery (deadline after [t]) is still
    turned down at [t] after [reset], which keeps the deadline, whereas
    after [resetAllAccountStates] it is accepted (positive [maxErrorCount],
    token not expired beyond the grace period). *)
Theorem reset_keeps_pending_recovery p accountId account t :
  NoDup (JsMap.keys (accounts p)) ->
  JsMap.get accountId (accounts p) = Some account ->
  Js.andAlso (autoRecoverAt account) (fun r => r >? t) = true ->
  0 < maxErrorCount (config p) ->
  Js.andAlso (expiresAt account)
    (fun e => e + expiryGracePeriodMs (config p) <? t) = false ->
  getAccount accountId (reset p) = Some (softReset account) /\
  isAccountAvailable (softReset account) t (reset p) = (false, reset p) /\
  getAccount accountId (snd (resetAllAccountStates p)) = Some (fullReset account) /\
  isAccountAvailable (fullReset account) t (snd (resetAllAccountStates p))
    = (true, snd (resetAllAccountStates p)).
Proof.
  intros Hnd Hget Hpending Hmax Hexp.
  destruct (resets_rewrite_all_helper p Hnd) as (E1 & E2).
  unfold getAccount. rewrite E1, E2, !get_map, Hget. cbn [option_map].
  split; [reflexivity|]. split; [|split; [reflexivity|]].
  - unfold isAccountAvailable. cbn [autoRecoverAt softReset].
    assert (Hnot : Js.andAlso (autoRecoverAt account) (fun r => r <=? t) = false).
    { unfold Js.andAlso in *. destruct (autoRecoverAt account) as [r|]; [|reflexivity].
      apply andb_prop in Hpending as [Hnz Hgt]. rewrite Hnz. cbn.
      apply Z.leb_gt. apply Z.gtb_lt in Hgt. lia. }
    now rewrite Hnot, Hpending.
  - unfold isAccountAvailable. cbn.
    destruct (Z.geb_spec 0 (maxErrorCount (config p))); [lia|].
    cbn in Hexp. now rewrite Hexp.
Qed.

Lemma reset_keeps_pending_recovery_witness :
  getAccount "a" (reset poolAuthError)
    = Some (softReset (errored DEFAULT_CONFIG (registered "a") auth 1000)) /\
  isAccountAvailable (softReset (errored DEFAULT_CONFIG (registered "a") auth 1000))
    5000 (reset poolAuthError) = (false, reset poolAuthError) /\
  getAccount "a" (snd (resetAllAccountStates poolAuthError))
    = Some (fullReset (errored DEFAULT_CONFIG (registered "a") auth 1000)) /\
  isAccountAvailable (fullReset (errored DEFAULT_CONFIG (registered "a") auth 1000))
    5000 (snd (resetAllAccountStates poolAuthError))
    = (true, snd (resetAllAccountStates poolAuthError)).
Proof.
  refine (reset_keeps_pending_recovery poolAuthError "a"
            (errored DEFAULT_CONFIG (registered "a") auth 1000) 5000 _ eq_refl
            eq_refl _ eq_refl).
  - repeat constructor; cbn; intuition discriminate.
  - vm_compute. reflexivity.
Defined.

(** ** Statistics totals *)

Lemma getStatsTotal_fold p :
  getStatsTotal p = fold_left addStats (JsMap.values (accountStats p)) (0, 0, 0).
Proof.
  unfold getStatsTotal. generalize (0, 0, 0).
  induction (JsMap.values (accountStats p)) as [|s l IH]; intros acc; cbn [fold_left];
    [reflexivity|].
  rewrite IH. now destruct acc as [[a b] c].
Qed.

Lemma fold_addStats_shift l : forall acc delta,
  fold_left addStats l (plus3 acc delta) = plus3 (fold_left addStats l acc) delta.
Proof.
  induction l as [|s l IH]; intros acc delta; cbn [fold_left]; [reflexivity|].
  rewrite <- IH. f_equal. destruct acc as [[a b] c], delta as [[a' b'] c']. cbn.
  f_equal; [f_equal|]; lia.
Qed.

Lemma fold_addStats_set k (s s' : AccountStats) (dr dt de : Z) : forall m acc,
  JsMap.get k m = Some s ->
  Stats.requests s' = Stats.requests s + dr ->
  Stats.tokens s' = Stats.tokens s + dt ->
  Stats.errors s' = Stats.errors s + de ->
  fold_left addStats (JsMap.values (JsMap.set k s' m)) acc
    = plus3 (fold_left addStats (JsMap.values m) acc) (dr, dt, de).
Proof.
  induction m as [|[k' v'] m IH]; intros acc Hget Hr Ht He; cbn in Hget |- *;
    [discriminate|].
  destruct (String.eqb k' k) eqn:E.
  - injection Hget as ->. cbn [JsMap.values map fold_left].
    rewrite <- fold_addStats_shift. f_equal.
    destruct acc as [[a b] c]. cbn. rewrite Hr, Ht, He. f_equal; [f_equal|]; lia.
  - cbn [JsMap.values map fold_left]. now apply IH.
Qed.

(** X22: on an id that has statistics, an error report raises the total
    error count of [getStats] by exactly 1 and leaves the totals of
    requests and tokens alone; a success report raises the total of
    requests by 1 and the total of tokens by the tokens reported, and
    leaves the total of errors alone. *)
Theorem getStats_totals_follow_reports p accountId account stats :
  JsMap.get accountId (accounts p) = Some account ->
  JsMap.get accountId (accountStats p) = Some stats ->
  (forall errorType now,
     snd (getStats (recordError accountId errorType now p))
       = plus3 (snd (getStats p)) (0, 0, 1)) /\
  (forall tokens now now',
     snd (getStats (recordSuccess accountId tokens now now' p))
       = plus3 (snd (getStats p)) (1, tokens, 0)).
Proof.
  intros Ha Hs. unfold getStats. cbn [snd]. split.
  - intros errorType now. unfold recordError. rewrite Ha.
    cbn [accountStats withAccounts]. rewrite Hs. rewrite !getStatsTotal_fold.
    cbn [accountStats withStats].
    apply (fold_addStats_set accountId stats); cbn; [exact Hs | lia | lia | lia].
  - intros tokens now now'. unfold recordSuccess. rewrite Ha.
    cbn [accountStats withAccounts]. rewrite Hs. rewrite !getStatsTotal_fold.
    cbn [accountStats withStats].
    apply (fold_addStats_set accountId stats); cbn; [exact Hs | lia | lia | lia].
Qed.

Lemma getStats_totals_follow_reports_witness :
  (forall errorType now,
     snd (getStats (recordError "a" errorType now poolThreeErrors))
       = plus3 (snd (getStats poolThreeErrors)) (0, 0, 1)) /\
  (forall tokens now now',
     snd (getStats (recordSuccess "a" tokens now now' poolThreeErrors))
       = plus3 (snd (getStats poolThreeErrors)) (1, tokens, 0)).
Proof.
  exact (getStats_totals_follow_reports poolThreeErrors "a"
           (mkAccount "a" None None (Some true) (Some 3) (Some 0) (Some 3000)
              (Some 63000) None None)
           (Stats.mkStats 0 0 0 0 3 3000 0 0) eq_refl eq_refl).
Defined.

(** ** Diagnostics, continued *)

Lemma remaining_nonneg x now : 0 <= remaining x now.
Proof. unfold remaining. destruct (Js.truthy x); lia. Qed.

(** X23: [getAccountDiagnostics] returns [null] exactly for an unknown id.
    For a known one the two remaining times are never negative, a positive
    [autoRecoverRemaining] always comes with [isCurrentlyAvailable = false],
    and [isCurrentlyAvailable = true] next to a positive
    [cooldownRemaining] happens only when the call itself has just
    performed the auto-recovery (the cooldown shown is the one it cleared). *)
Theorem diagnostics_consistent accountId now p :
  match fst (getAccountDiagnostics accountId now p) with
  | None => getAccount accountId p = None
  | Some d =>
      exists account,
        getAccount accountId p = Some account /\
        d_id d = id account /\
        isCurrentlyAvailable d = fst (isAccountAvailable account now p) /\
        0 <= cooldownRemaining d /\
        0 <= autoRecoverRemaining d /\
        (0 < autoRecoverRemaining d -> isCurrentlyAvailable d = false) /\
        (0 < cooldownRemaining d -> isCurrentlyAvailable d = true ->
         dueRecovery account now = true)
  end.
Proof.
  unfold getAccountDiagnostics, getAccount.
  destruct (JsMap.get accountId (accounts p)) as [account|]; [|reflexivity].
  destruct (isAccountAvailable account now p) as [ok p1] eqn:E. cbn [fst].
  exists account. cbn. split; [reflexivity|]. split; [reflexivity|].
  split; [now rewrite E|]. split; [apply remaining_nonneg|].
  split; [apply remaining_nonneg|].
  assert (Hok : ok = fst (isAccountAvailable account now p)) by now rewrite E.
  clear E. unfold isAccountAvailable in Hok. fold (dueRecovery account now) in Hok.
  split.
  - unfold remaining. intros Hpos.
    destruct (autoRecoverAt account) as [r|] eqn:Er; cbn in Hpos; [|lia].
    destruct (Z.eqb_spec r 0); cbn in Hpos; [lia|].
    unfold dueRecovery in Hok. rewrite Er in Hok. cbn in Hok.
    destruct (Z.eqb_spec r 0); [contradiction|]. cbn in Hok.
    destruct (Z.leb_spec r now); [lia|].
    destruct (Z.gtb_spec r now); [exact Hok | lia].
  - unfold remaining. intros Hpos Htrue.
    destruct (dueRecovery account now); [reflexivity|].
    destruct (Js.andAlso (autoRecoverAt account) (fun t => t >? now));
      [cbn in Hok; congruence|].
    destruct (cooldownUntil account) as [c|] eqn:Ec; cbn in Hpos; [|lia].
    destruct (Z.eqb_spec c 0); cbn in Hpos; [lia|].
    cbn in Hok. destruct (Z.eqb_spec c 0); [contradiction|]. cbn in Hok.
    destruct (Z.gtb_spec c now); [cbn in Hok; congruence | lia].
Qed.

(** ** The number of available accounts *)

Lemma length_set_le {V : Type} k (v : V) m :
  (List.length (JsMap.set k v m) <= S (List.length m))%nat.
Proof.
  induction m as [|[k' v'] m IH]; cbn; [lia|].
  destruct (String.eqb k' k); cbn; lia.
Qed.

Lemma skipn_nth_error {A : Type} (l : list A) i x :
  nth_error l i = Some x -> skipn i l = x :: skipn (S i) l.
Proof.
  revert i. induction l as [|y l IH]; intros [|i]; cbn; try discriminate.
  - now intros [= ->].
  - intros H. now rewrite (IH i H).
Qed.

Lemma dueCount_skipn_set now k v (m : list (string * ProxyAccount)) :
  dueRecovery v now = false ->
  forall j, (dueCount now (skipn j (JsMap.values (JsMap.set k v m)))
             <= dueCount now (skipn j (JsMap.values m)))%nat.
Proof.
  intros Hv. unfold dueCount.
  induction m as [|[k' v'] m IH]; intros j; cbn [JsMap.set].
  - destruct j as [|j]; cbn; [rewrite Hv; cbn; lia|]. destruct j; cbn; lia.
  - destruct (String.eqb k' k).
    + destruct j as [|j]; cbn; [|lia]. rewrite Hv.
      destruct (dueRecovery v' now); cbn; lia.
    + destruct j as [|j]; cbn [JsMap.values map skipn].
      * specialize (IH 0%nat). cbn [skipn] in IH. cbn [filter snd].
        unfold JsMap.values in IH.
        destruct (dueRecovery v' now); cbn [List.length]; lia.
      * apply IH.
Qed.

Lemma recovered_not_due a now : dueRecovery (recovered a) now = false.
Proof. reflexivity. Qed.

Lemma countLoop_enough now : forall fuel i count p,
  (List.length (accounts p) - i
   + dueCount now (skipn i (JsMap.values (accounts p))) <= fuel)%nat ->
  exists r, countLoop fuel i now count p = Some r.
Proof.
  induction fuel as [|fuel IH]; intros i count p Hfuel;
    cbn [countLoop];
    destruct (nth_error (JsMap.values (accounts p)) i) as [b|] eqn:E; eauto.
  - exfalso. assert (Hi : (i < List.length (JsMap.values (accounts p)))%nat)
      by (apply nth_error_Some; congruence).
    unfold JsMap.values in Hi. rewrite length_map in Hi. lia.
  - assert (Hi : (i < List.length (accounts p))%nat).
    { assert (H : (i < List.length (JsMap.values (accounts p)))%nat)
        by (apply nth_error_Some; congruence).
      unfold JsMap.values in H. now rewrite length_map in H. }
    rewrite (skipn_nth_error _ _ _ E) in Hfuel. unfold dueCount in Hfuel.
    cbn [filter] in Hfuel.
    destruct (dueRecovery b now) eqn:Hdue.
    + rewrite (isAccountAvailable_due b now p Hdue).
      apply IH. cbn [accounts withAccounts].
      pose proof (length_set_le (id b) (recovered b) (accounts p)).
      pose proof (dueCount_skipn_set now (id b) (recovered b) (accounts p)
                    (recovered_not_due b now) (S i)).
      unfold dueCount in *. cbn [List.length] in Hfuel. lia.
    + pose proof (isAccountAvailable_not_due b now p Hdue) as Hs.
      destruct (isAccountAvailable b now p) as [ok p1]. cbn in Hs. subst p1.
      apply IH. unfold dueCount. lia.
Qed.

(** X24: the getter [availableCount] always returns: although it iterates
    over the map it is writing to, twice as many visits as there are
    accounts are enough in every pool. *)
Theorem availableCount_returns now p :
  exists count p', availableCount now p = Some (count, p').
Proof.
  destruct (countLoop_enough now (2 * List.length (accounts p)) 0 0 p) as ([c q] & E).
  - unfold dueCount.
    pose proof (filter_length_le (fun a => dueRecovery a now)
                  (JsMap.values (accounts p))) as H.
    cbn [skipn]. unfold JsMap.values in *. rewrite length_map in H. lia.
  - exists c, q. exact E.
Qed.

Lemma withAccounts_same p : withAccounts (accounts p) p = p.
Proof. now destruct p. Qed.

Lemma nth_error_values_middle (pre rest : list (string * ProxyAccount)) k a :
  nth_error (JsMap.values (pre ++ (k, a) :: rest)) (List.length pre) = Some a.
Proof.
  unfold JsMap.values. rewrite map_app, nth_error_app2 by (rewrite length_map; lia).
  now rewrite length_map, Nat.sub_diag.
Qed.

Lemma countLoop_wf now cfg : forall rest pre fuel count p,
  accounts p = pre ++ rest ->
  config p = cfg ->
  NoDup (JsMap.keys (pre ++ rest)) ->
  keyed rest ->
  (List.length rest <= fuel)%nat ->
  countLoop fuel (List.length pre) now count p =
    Some (count
          + Z.of_nat (List.length
                        (filter (fun a => fst (isAccountAvailable a now
                                                 (mkPool [] [] 0%nat cfg)))
                                (JsMap.values rest))),
          withAccounts (pre ++ map (recoverDue now) rest) p).
Proof.
  induction rest as [|[k a] rest IH]; intros pre fuel count p Hacc Hcfg Hnd Hk Hfuel.
  - destruct fuel; cbn [countLoop]; rewrite Hacc;
      (assert (nth_error (JsMap.values (pre ++ [])) (List.length pre) = None) as ->
         by (apply nth_error_None; unfold JsMap.values;
             rewrite length_map, app_nil_r; lia));
      cbn; rewrite Z.add_0_r, <- Hacc, withAccounts_same; reflexivity.
  - destruct fuel as [|fuel]; [cbn in Hfuel; lia|].
    cbn [countLoop]. rewrite Hacc at 1. rewrite nth_error_values_middle.
    inversion Hk as [|? ? Hid Hk']; subst. cbn in Hid.
    assert (Hpre : ~ In k (JsMap.keys pre)).
    { unfold JsMap.keys in *. rewrite map_app in Hnd. cbn in Hnd.
      apply NoDup_remove_2 in Hnd. intros H. apply Hnd. apply in_or_app. now left. }
    assert (Hverdict : fst (isAccountAvailable a now p)
                       = fst (isAccountAvailable a now (mkPool [] [] 0%nat (config p))))
      by (apply isAccountAvailable_config; reflexivity).
    cbn [JsMap.values map filter snd]. fold (JsMap.values rest).
    destruct (dueRecovery a now) eqn:Hdue.
    + rewrite (isAccountAvailable_due a now p Hdue) in *. cbn [fst] in Hverdict.
      rewrite <- Hverdict. cbn [List.length].
      replace (S (List.length pre)) with (List.length (pre ++ [(k, recovered a)]))
        by (rewrite length_app; cbn; lia).
      rewrite (IH (pre ++ [(k, recovered a)]) fuel (count + 1)
                 (withAccounts (JsMap.set (id a) (recovered a) (accounts p)) p)).
      * f_equal. f_equal; [lia|].
        rewrite <- app_assoc. unfold recoverDue at 2. cbn [fst snd]. rewrite Hdue.
        reflexivity.
      * cbn [accounts withAccounts]. rewrite Hacc, Hid, set_app_absent by exact Hpre.
        now rewrite <- app_assoc.
      * reflexivity.
      * unfold JsMap.keys in *. rewrite <- app_assoc, map_app in *. exact Hnd.
      * exact Hk'.
      * cbn in Hfuel. lia.
    + pose proof (isAccountAvailable_not_due a now p Hdue) as Hs.
      destruct (isAccountAvailable a now p) as [ok p1]. cbn in Hs, Hverdict. subst p1.
      rewrite <- Hverdict.
      replace (S (List.length pre)) with (List.length (pre ++ [(k, a)]))
        by (rewrite length_app; cbn; lia).
      rewrite (IH (pre ++ [(k, a)]) fuel (if ok then count + 1 else count) p).
      * f_equal. f_equal; [destruct ok; cbn [List.length]; lia|].
        rewrite <- app_assoc. unfold recoverDue at 2. cbn [fst snd]. rewrite Hdue.
        reflexivity.
      * rewrite Hacc. now rewrite <- app_assoc.
      * reflexivity.
      * unfold JsMap.keys in *. rewrite <- app_assoc, map_app in *. exact Hnd.
      * exact Hk'.
      * cbn in Hfuel. lia.
Qed.

(** X25: in a well-formed pool [availableCount] is the number of accounts
    the availability predicate accepts at that time, and the call leaves
    the pool as it was except that every account whose auto-recovery
    deadline has been reached is now stored recovered. *)
Theorem availableCount_counts_passing now p :
  wf p ->
  availableCount now p =
    Some (Z.of_nat (List.length
                      (filter (fun a => fst (isAccountAvailable a now p))
                              (JsMap.values (accounts p)))),
          withAccounts (map (recoverDue now) (accounts p)) p).
Proof.
  intros [Hnd Hk]. unfold availableCount.
  rewrite (countLoop_wf now (config p) (accounts p) [] _ 0 p); try easy; [|lia].
  cbn [app Z.add]. do 4 f_equal. apply filter_ext. intros a.
  apply isAccountAvailable_config. reflexivity.
Qed.

Lemma availableCount_counts_passing_witness :
  availableCount 301000 poolAllDown =
    Some (Z.of_nat (List.length
                      (filter (fun a => fst (isAccountAvailable a 301000 poolAllDown))
                              (JsMap.values (accounts poolAllDown)))),
          withAccounts (map (recoverDue 301000) (accounts poolAllDown)) poolAllDown).
Proof.
  apply (availableCount_counts_passing 301000 poolAllDown).
  split.
  - repeat constructor; cbn; intuition discriminate.
  - repeat constructor.
Defined.

(** ** The log buffer *)

Lemma appendBatch_sliceLast {A : Type} (prev entries : list A) :
  RealtimeLogs.appendBatch prev entries
    = RealtimeLogs.sliceLast RealtimeLogs.maxLogs (prev ++ entries).
Proof.
  unfold RealtimeLogs.appendBatch, RealtimeLogs.sliceLast.
  destruct (Nat.ltb_spec RealtimeLogs.maxLogs (List.length (prev ++ entries)));
    [reflexivity|].
  replace (List.length (prev ++ entries) - RealtimeLogs.maxLogs)%nat with 0%nat by lia.
  reflexivity.
Qed.

(** X26: the log panel keeps the most recent entries only: after a batch
    the buffer is the tail of the old buffer followed by the batch, and its
    length is the smaller of 500 and the number of entries seen. *)
Theorem appendBatch_keeps_most_recent {A : Type} (prev entries : list A) :
  (exists dropped,
     prev ++ entries = dropped ++ RealtimeLogs.appendBatch prev entries) /\
  List.length (RealtimeLogs.appendBatch prev entries)
    = Nat.min 500 (List.length prev + List.length entries).
Proof.
  rewrite appendBatch_sliceLast. unfold RealtimeLogs.sliceLast, RealtimeLogs.maxLogs.
  split.
  - exists (firstn (List.length (prev ++ entries) - 500) (prev ++ entries)).
    now rewrite firstn_skipn.
  - rewrite length_skipn, length_app. lia.
Qed.

Lemma sliceLast_app {A : Type} n (l e : list A) :
  RealtimeLogs.sliceLast n (RealtimeLogs.sliceLast n l ++ e)
    = RealtimeLogs.sliceLast n (l ++ e).
Proof.
  unfold RealtimeLogs.sliceLast.
  destruct (Nat.le_gt_cases (List.length l) n) as [Hle|Hgt].
  - replace (List.length l - n)%nat with 0%nat by lia. reflexivity.
  - rewrite !length_app, length_skipn, !skipn_app, length_skipn, skipn_skipn.
    f_equal; f_equal; lia.
Qed.

(** X27: the buffer does not depend on how the entries are batched: two
    batches appended one after the other leave the same buffer as the two
    delivered as one batch. *)
Theorem appendBatch_batches_compose {A : Type} (prev first second : list A) :
  RealtimeLogs.appendBatch (RealtimeLogs.appendBatch prev first) second
    = RealtimeLogs.appendBatch prev (first ++ second).
Proof.
  rewrite !appendBatch_sliceLast, sliceLast_app. now rewrite app_assoc.
Qed.

(** ** The two versions of the availability predicate *)



(** ** The two versions of the error report *)

Lemma andAlso_orZero x f : Js.andAlso (Some (Js.orZero x)) f = Js.andAlso x f.
Proof. destruct x; reflexivity. Qed.

Lemma isAccountAvailable_cooldown_repr a1 a2 t q :
  cooldownUntil a1 = Some (Js.orZero (cooldownUntil a2)) ->
  (id a1, isAvailable a1, errorCount a1, autoRecoverAt a1, expiresAt a1)
    = (id a2, isAvailable a2, errorCount a2, autoRecoverAt a2, expiresAt a2) ->
  fst (isAccountAvailable a1 t q) = fst (isAccountAvailable a2 t q).
Proof.
  intros Hc [= Hid Hav Hec Har Hex]. unfold isAccountAvailable.
  rewrite Hc, andAlso_orZero, Hav, Hec, Har, Hex.
  repeat match goal with |- context [if ?c then _ else _] => destruct c end;
    reflexivity.
Qed.

(** X29: for every classification other than [auth] the error report of
    the other version writes the same statistics as the one of
    [accountPool.ts] and a record equal to it in every field except that an
    unset cooldown stays unset instead of becoming 0, which the
    availability predicate cannot tell apart; the legacy argument [true]
    is a [quota] report and [false] an [unknown] one.  For [auth] the other
    version writes no statistics at all. *)
Theorem error_reports_agree_except_auth accountId account errorType now now' p :
  JsMap.get accountId (accounts p) = Some account ->
  (errorType <> auth ->
   accountStats (Variant.recordError accountId (inl errorType) now now' p)
     = accountStats (recordError accountId errorType now p) /\
   exists a1 a2,
     getAccount accountId (recordError accountId errorType now p) = Some a1 /\
     getAccount accountId (Variant.recordError accountId (inl errorType) now now' p)
       = Some a2 /\
     cooldownUntil a1 = Some (Js.orZero (cooldownUntil a2)) /\
     (id a1, email a1, idp a1, isAvailable a1, errorCount a1)
       = (id a2, email a2, idp a2, isAvailable a2, errorCount a2) /\
     (requestCount a1, lastUsed a1, autoRecoverAt a1, expiresAt a1)
       = (requestCount a2, lastUsed a2, autoRecoverAt a2, expiresAt a2) /\
     forall t q, fst (isAccountAvailable a1 t q) = fst (isAccountAvailable a2 t q)) /\
  Variant.recordError accountId (inr true) now now' p
    = Variant.recordError accountId (inl quota) now now' p /\
  Variant.recordError accountId (inr false) now now' p
    = Variant.recordError accountId (inl unknown) now now' p /\
  accountStats (Variant.recordError accountId (inl auth) now now' p) = accountStats p.
Proof.
  intros Hget. split; [|split; [reflexivity|split; [reflexivity|]]].
  - intros Hty.
    destruct (recordError_get accountId errorType now p account Hget) as (G & _).
    unfold getAccount. rewrite G.
    assert (Hs : accountStats (recordError accountId errorType now p)
                 = match JsMap.get accountId (accountStats p) with
                   | Some stats =>
                       JsMap.set accountId
                         (Stats.mkStats (Stats.requests stats) (Stats.tokens stats)
                            (Stats.inputTokens stats) (Stats.outputTokens stats)
                            (Stats.errors stats + 1) now
                            (Stats.avgResponseTime stats) (Stats.totalResponseTime stats))
                         (accountStats p)
                   | None => accountStats p
                   end).
    { unfold recordError. rewrite Hget. cbn [accountStats withAccounts].
      destruct (JsMap.get accountId (accountStats p)); reflexivity. }
    rewrite Hs. clear Hs G.
    unfold Variant.recordError. rewrite Hget. cbn [Variant.actualErrorType].
    destruct errorType; try congruence;
      try (destruct (Js.orZero (errorCount account) + 1 >=? maxErrorCount (config p))
             eqn:Eg);
      cbn [accountStats withAccounts accounts];
      (split;
       [destruct (JsMap.get accountId (accountStats p)); reflexivity|]);
      eexists; eexists; (split; [reflexivity|]);
      (split;
       [destruct (JsMap.get accountId (accountStats p));
        cbn [accounts withStats withAccounts]; apply get_set_same|]);
      unfold errored, applyPolicy; try rewrite Eg;
      cbn [cooldownUntil id email idp isAvailable errorCount requestCount lastUsed
             autoRecoverAt expiresAt Js.orZero];
      (split; [reflexivity|]); (split; [reflexivity|]); (split; [reflexivity|]);
      intros t q; apply isAccountAvailable_cooldown_repr; reflexivity.
  - unfold Variant.recordError, Variant.markNeedsRefresh. rewrite Hget. reflexivity.
Qed.

Lemma error_reports_agree_except_auth_witness :
  Variant.recordError "a" (inr true) 1000 1001 poolABC
    = Variant.recordError "a" (inl quota) 1000 1001 poolABC.
Proof.
  exact (proj1 (proj2 (error_reports_agree_except_auth "a" (registered "a") quota
                         1000 1001 poolABC eq_refl))).
Defined.
